(** * The noise schedule and sampling loop of [Models/1D_diffusion.py]

    The numerical core of the repository is embedded over the real numbers:
    a Python/torch float is read as an element of [R], so [torch.cos],
    [torch.sin], [torch.atan2] and [sqrt] are the exact mathematical
    functions, no rounding takes place and no real number is out of
    range.  Where an operation of the sampler leaves the domain of the
    real function (the square root of a negative number, a division by
    zero) torch goes on with a value that is no number; the sampler is
    therefore modelled on floats that are a real number or such a
    non-finite value, and so is the conversion to half precision of the
    dataset.  The arguments [steps] and [eta] are an integer and a real
    number.  Tensors are nested lists. *)

From Stdlib Require Import Reals Lra Lia List ZArith Bool.
Import ListNotations.

Open Scope R_scope.

(** ** torch primitives used by the schedule *)

(** [torch.atan2(y, x)]: the angle of the point [(x, y)], in (-PI, PI],
    with the value 0 at the origin. *)
Definition atan2 (y x : R) : R :=
  if Rlt_dec 0 x then atan (y / x)
  else if Rlt_dec x 0 then
    (if Rle_dec 0 y then atan (y / x) + PI else atan (y / x) - PI)
  else if Rlt_dec 0 y then PI / 2
  else if Rlt_dec y 0 then - (PI / 2)
  else 0.

(** ** The noise schedule (lines 19-32) *)

(** [return torch.cos(t * math.pi / 2), torch.sin(t * math.pi / 2)] *)
Definition get_alphas_sigmas (t : R) : R * R :=
  (cos (t * PI / 2), sin (t * PI / 2)).

(** [return torch.atan2(sigma, alpha) / math.pi * 2] *)
Definition alpha_sigma_to_t (alpha sigma : R) : R :=
  atan2 sigma alpha / PI * 2.

(** [sigma = torch.sin(t * math.pi / 2) ** 2]
    [alpha = (1 - sigma ** 2) ** 0.5]
    [return alpha_sigma_to_t(alpha, sigma)] *)
Definition get_crash_schedule (t : R) : R :=
  let sigma := sin (t * PI / 2) ^ 2 in
  let alpha := sqrt (1 - sigma ^ 2) in
  alpha_sigma_to_t alpha sigma.

(** ** Tensors

    A signal tensor of shape (batch, channels, length) is a list of
    examples, each a list of channels, each a list of samples.  A
    1-dimensional tensor is a list of reals. *)

Definition Tensor : Type := list (list (list R)).

Fixpoint zipWith {A B C : Type} (f : A -> B -> C) (l : list A) (l' : list B)
  : list C :=
  match l, l' with
  | a :: r, b :: r' => f a b :: zipWith f r r'
  | _, _ => []
  end.

(** Elementwise operations.  The binary ones stand for torch's [+], [-] on
    two tensors of equal shape, the only case the sampler meets when the
    denoiser returns a velocity of the shape of its input. *)
Definition tmap {A B : Type} (f : A -> B) (x : list (list (list A)))
  : list (list (list B)) := map (map (map f)) x.
Definition tzip {A B C : Type} (f : A -> B -> C) (x : list (list (list A)))
  (y : list (list (list B))) : list (list (list C)) :=
  zipWith (zipWith (zipWith f)) x y.

(** [x * a] for a 0-dimensional tensor [a] *)
Definition tscale (x : Tensor) (a : R) : Tensor := tmap (fun e => e * a) x.
Definition tadd : Tensor -> Tensor -> Tensor := tzip Rplus.
Definition tsub : Tensor -> Tensor -> Tensor := tzip Rminus.

Definition same_shape {A B : Type} (x : list (list (list A)))
  (y : list (list (list B))) : Prop :=
  Forall2 (Forall2 (fun (r : list A) (r' : list B) => length r = length r'))
          x y.

(** ** Floats that may be non-finite

    A value of a tensor the sampler works on: a real number, or a value
    that is not a finite number (an infinity or NaN).  A non-finite operand
    makes the result of [+], [-], [*] and [sqrt] non-finite; so does the
    square root of a negative number and the division by zero.  The only
    divisions of the sampler have finite operands. *)
Inductive float : Type :=
| Fin (r : R)
| NonFinite.

(** A real number is read as the float [Fin] of it where a float is
    expected. *)
Coercion Fin : R >-> float.

Definition fadd (a b : float) : float :=
  match a, b with
  | Fin x, Fin y => Fin (x + y)
  | _, _ => NonFinite
  end.
Definition fsub (a b : float) : float :=
  match a, b with
  | Fin x, Fin y => Fin (x - y)
  | _, _ => NonFinite
  end.
Definition fmul (a b : float) : float :=
  match a, b with
  | Fin x, Fin y => Fin (x * y)
  | _, _ => NonFinite
  end.
Definition fsqrt (a : float) : float :=
  match a with
  | Fin x => if Rlt_dec x 0 then NonFinite else Fin (sqrt x)
  | NonFinite => NonFinite
  end.
(** [x / y] for two finite operands *)
Definition rdiv (x y : R) : float :=
  if Req_dec_T y 0 then NonFinite else Fin (x / y).

(** The tensors of the sampler, and their elementwise operations. *)
Definition FTensor : Type := list (list (list float)).

(** [x * a] for a 0-dimensional tensor [a] *)
Definition ftscale (x : FTensor) (a : float) : FTensor :=
  tmap (fun e => fmul e a) x.
Definition ftadd : FTensor -> FTensor -> FTensor := tzip fadd.
Definition ftsub : FTensor -> FTensor -> FTensor := tzip fsub.

(** The schedule functions applied to a 1-dimensional tensor act
    elementwise. *)
Definition get_crash_schedule_t (t : list R) : list R :=
  map get_crash_schedule t.
Definition get_alphas_sigmas_t (t : list R) : list R * list R :=
  (map (fun u => fst (get_alphas_sigmas u)) t,
   map (fun u => snd (get_alphas_sigmas u)) t).

(** ** Exceptions, the world and the sampler's monad *)

Inductive exn : Type :=
| IndexError          (* tensor index out of range *)
| RuntimeError        (* raised by a torch argument check *)
| UnboundLocalError.  (* a local variable read before assignment *)

Inductive Result (A : Type) : Type :=
| Ok (a : A)
| Raise (e : exn).
Arguments Ok {A} a.
Arguments Raise {A} e.

(** What the code can observe or change outside its locals: the
    position of torch's global generator in its stream of standard-normal
    draws, and the invocations of the network so far, oldest first, each
    with the signal and the timestep tensor it received.  [T] is the type
    of the signal tensors. *)
Record GWorld (T : Type) : Type := mkWorld {
  rng_pos : nat;
  calls : list (T * list R)
}.
Arguments mkWorld {T} rng_pos calls.
Arguments rng_pos {T} g.
Arguments calls {T} g.

(** The world of the training step, and the world of the sampler. *)
Definition World : Type := GWorld Tensor.
Definition FWorld : Type := GWorld FTensor.

Definition M (A : Type) : Type := FWorld -> Result A * FWorld.

Definition ret {A : Type} (a : A) : M A := fun w => (Ok a, w).
Definition raise {A : Type} (e : exn) : M A := fun w => (Raise e, w).
Definition bind {A B : Type} (m : M A) (k : A -> M B) : M B :=
  fun w => match m w with
           | (Ok a, w') => k a w'
           | (Raise e, w') => (Raise e, w')
           end.
Definition lift {A : Type} (r : Result A) : M A := fun w => (r, w).

Notation "x <- m ;; k" := (bind m (fun x => k))
  (at level 61, m at next level, right associativity).

(** ** torch and Python primitives used by the sampler *)

(** [torch.linspace(start, end, n)]: [n] points from [start] to [end]
    inclusive, evenly spaced; a negative [n] is refused. *)
Definition linspace (start stop : R) (n : Z) : Result (list R) :=
  if (n <? 0)%Z then Raise RuntimeError
  else if (n =? 1)%Z then Ok [start]
  else Ok (map (fun k => start + INR k * ((stop - start) / IZR (n - 1)))
               (seq 0 (Z.to_nat n))).

(** [l[i]] on a 1-dimensional tensor, negative indices counting from the
    end. *)
Definition index (l : list R) (i : Z) : Result R :=
  let n := Z.of_nat (length l) in
  if ((0 <=? i) && (i <? n))%Z then Ok (nth (Z.to_nat i) l 0)
  else if ((- n <=? i) && (i <? 0))%Z then Ok (nth (Z.to_nat (n + i)) l 0)
  else Raise IndexError.

(** [range(n)] *)
Definition range (n : Z) : list Z := map Z.of_nat (seq 0 (Z.to_nat n)).

(** Threading the generator position through a list. *)
Fixpoint draw_list {A B : Type} (draw : A -> nat -> B * nat) (l : list A)
  (pos : nat) : list B * nat :=
  match l with
  | [] => ([], pos)
  | a :: r =>
      let (b, pos1) := draw a pos in
      let (r', pos2) := draw_list draw r pos1 in
      (b :: r', pos2)
  end.

(** A tensor of the shape of [x] filled, in row-major order, with the
    generator's values from position [pos] on; and the position reached. *)
Definition randn_fill (normal : nat -> R) (x : Tensor) (pos : nat)
  : Tensor * nat :=
  draw_list (draw_list (draw_list (fun (_ : R) p => (normal p, S p)))) x pos.

(** The same for a tensor of floats; the values drawn are finite. *)
Definition frandn_fill (normal : nat -> R) (x : FTensor) (pos : nat)
  : FTensor * nat :=
  draw_list (draw_list (draw_list
    (fun (_ : float) p => (Fin (normal p), S p)))) x pos.

Section Sampler.

(** The stream of standard-normal values the global generator yields. *)
Variable normal : nat -> R.

(** The denoiser: a pure function of the signal and the per-example
    timesteps. *)
Variable model : FTensor -> list R -> FTensor.

(** [torch.randn_like(x)]: one fresh draw per element of [x]. *)
Definition randn_like (x : FTensor) : M FTensor :=
  fun w =>
    let (noise, pos) := frandn_fill normal x (rng_pos w) in
    (Ok noise, mkWorld pos (calls w)).

(** [model(x, tv)], recorded in the world. *)
Definition call_model (x : FTensor) (tv : list R) : M FTensor :=
  fun w => (Ok (model x tv), mkWorld (rng_pos w) (calls w ++ [(x, tv)])).

(** The locals that live across iterations: [x], and [pred], which is
    unbound until the first iteration assigns it. *)
Record Locals : Type := mkLocals {
  loc_x : FTensor;
  loc_pred : option FTensor
}.

(** Line 41 to 45: the noise schedule [(t, alphas, sigmas)]. *)
Definition noise_schedule (steps : Z)
  : Result (list R * list R * list R) :=
  match linspace 1 0 (steps + 1) with
  | Raise e => Raise e
  | Ok t0 =>
      let t := removelast t0 in
      let t := get_crash_schedule_t t in
      let (alphas, sigmas) := get_alphas_sigmas_t t in
      Ok (t, alphas, sigmas)
  end.

(** Lines 50 to 73: the body of the sampling loop. *)
Definition loop_body (ts t alphas sigmas : list R) (steps : Z) (eta : R)
  (i : Z) (st : Locals) : M Locals :=
  let x := loc_x st in
  t_i <- lift (index t i) ;;
  v <- call_model x (map (fun o => o * t_i) ts) ;;
  alpha_i <- lift (index alphas i) ;;
  sigma_i <- lift (index sigmas i) ;;
  let pred := ftsub (ftscale x (Fin alpha_i)) (ftscale v (Fin sigma_i)) in
  let eps := ftadd (ftscale x (Fin sigma_i)) (ftscale v (Fin alpha_i)) in
  if (i <? steps - 1)%Z then
    sigma_n <- lift (index sigmas (i + 1)) ;;
    alpha_n <- lift (index alphas (i + 1)) ;;
    let ddim_sigma :=
      fmul (fmul (Fin eta) (fsqrt (rdiv (sigma_n ^ 2) (sigma_i ^ 2))))
           (fsqrt (fsub (Fin 1) (rdiv (alpha_i ^ 2) (alpha_n ^ 2)))) in
    let adjusted_sigma :=
      fsqrt (fsub (Fin (sigma_n ^ 2)) (fmul ddim_sigma ddim_sigma)) in
    let x := ftadd (ftscale pred (Fin alpha_n)) (ftscale eps adjusted_sigma) in
    if Req_dec_T eta 0 then ret (mkLocals x (Some pred))
    else
      noise <- randn_like x ;;
      ret (mkLocals (ftadd x (ftscale noise ddim_sigma)) (Some pred))
  else ret (mkLocals x (Some pred)).

(** [for i in is: body] *)
Fixpoint for_loop (body : Z -> Locals -> M Locals) (iters : list Z)
  (st : Locals) : M Locals :=
  match iters with
  | [] => ret st
  | i :: r => st' <- body i st ;; for_loop body r st'
  end.

(** Lines 38 to 73 with the loop running over [iters]. *)
Definition sample_loop (x : FTensor) (steps : Z) (eta : R) (iters : list Z)
  : M Locals :=
  let ts := repeat 1 (length x) in
  sch <- lift (noise_schedule steps) ;;
  let '(t, alphas, sigmas) := sch in
  for_loop (loop_body ts t alphas sigmas steps eta) iters
           (mkLocals x None).

(** [sample(model, x, steps, eta)] *)
Definition sample (x : FTensor) (steps : Z) (eta : R) : M FTensor :=
  st <- sample_loop x steps eta (range steps) ;;
  match loc_pred st with
  | Some pred => ret pred
  | None => raise UnboundLocalError
  end.

End Sampler.

(** ** Notions used to state the properties *)

(** The noise coefficient the model sees at a linear timestep [t]: without
    the warp, and through it. *)
Definition unwarped_sigma (t : R) : R := snd (get_alphas_sigmas t).
Definition warped_sigma (t : R) : R :=
  snd (get_alphas_sigmas (get_crash_schedule t)).

(** [f] grows more steeply than [g] on the interval from [a] to [b]:
    every increment of [f] inside it exceeds that of [g]. *)
Definition steeper_on (f g : R -> R) (a b : R) : Prop :=
  forall t1 t2, a <= t1 -> t1 < t2 -> t2 <= b -> g t2 - g t1 < f t2 - f t1.

(** [f] grows more steeply than [g] near 0. *)
Definition steeper_near_0 (f g : R -> R) : Prop :=
  exists d, 0 < d /\ steeper_on f g 0 d.

(** The denoiser returns a velocity of the shape of the signal it is
    given. *)
Definition shape_preserving {A : Type}
  (model : list (list (list A)) -> list R -> list (list (list A))) : Prop :=
  forall x tv, same_shape (model x tv) x.

(** Number of elements of a tensor. *)
Definition numel {A : Type} (x : list (list (list A))) : nat :=
  list_sum (map (fun m => list_sum (map (@length A) m)) x).

(** Every value of the tensor is a real number; every value is
    non-finite. *)
Definition tfinite (x : FTensor) : Prop :=
  Forall (Forall (Forall (fun e => e <> NonFinite))) x.
Definition tnonfinite (x : FTensor) : Prop :=
  Forall (Forall (Forall (fun e => e = NonFinite))) x.

(** The denoiser returns real numbers when it is given real numbers. *)
Definition finite_preserving (model : FTensor -> list R -> FTensor) : Prop :=
  forall x tv, tfinite x -> tfinite (model x tv).

(** The linear timestep [t_i = 1 - i/steps], its warp, and the schedule
    coefficients at the warped value. *)
Definition timestep (steps : Z) (i : nat) : R := 1 - INR i / IZR steps.
Definition sched_t (steps : Z) (i : nat) : R :=
  get_crash_schedule (timestep steps i).
Definition sched_alpha (steps : Z) (i : nat) : R :=
  fst (get_alphas_sigmas (sched_t steps i)).
Definition sched_sigma (steps : Z) (i : nat) : R :=
  snd (get_alphas_sigmas (sched_t steps i)).

(** One iteration of the sampling loop, for [0 <= i < steps], as a pure
    function of the locals and the world before it: the reference the
    monadic [loop_body] is compared with.  [batch] is [x.shape[0]] of the
    initial signal. *)
Definition iteration (normal : nat -> R)
  (model : FTensor -> list R -> FTensor)
  (batch : nat) (steps : Z) (eta : R) (i : nat) (sw : Locals * FWorld)
  : Locals * FWorld :=
  let (st, w) := sw in
  let x := loc_x st in
  let tv := repeat (sched_t steps i) batch in
  let v := model x tv in
  let w1 := mkWorld (rng_pos w) (calls w ++ [(x, tv)]) in
  let pred :=
    ftsub (ftscale x (Fin (sched_alpha steps i)))
          (ftscale v (Fin (sched_sigma steps i))) in
  let eps :=
    ftadd (ftscale x (Fin (sched_sigma steps i)))
          (ftscale v (Fin (sched_alpha steps i))) in
  if (Z.of_nat i <? steps - 1)%Z then
    let ddim_sigma :=
      fmul (fmul (Fin eta)
                 (fsqrt (rdiv (sched_sigma steps (S i) ^ 2)
                              (sched_sigma steps i ^ 2))))
           (fsqrt (fsub (Fin 1)
                        (rdiv (sched_alpha steps i ^ 2)
                              (sched_alpha steps (S i) ^ 2)))) in
    let adjusted_sigma :=
      fsqrt (fsub (Fin (sched_sigma steps (S i) ^ 2))
                  (fmul ddim_sigma ddim_sigma)) in
    let x' :=
      ftadd (ftscale pred (Fin (sched_alpha steps (S i))))
            (ftscale eps adjusted_sigma) in
    if Req_dec_T eta 0 then (mkLocals x' (Some pred), w1)
    else
      let (noise, pos) := frandn_fill normal x' (rng_pos w1) in
      (mkLocals (ftadd x' (ftscale noise ddim_sigma)) (Some pred),
       mkWorld pos (calls w1))
  else (mkLocals x (Some pred), w1).

(** Locals and world after the first [k] iterations. *)
Fixpoint trajectory (normal : nat -> R)
  (model : FTensor -> list R -> FTensor)
  (x0 : FTensor) (steps : Z) (eta : R) (w0 : FWorld) (k : nat)
  : Locals * FWorld :=
  match k with
  | O => (mkLocals x0 None, w0)
  | S k' =>
      iteration normal model (length x0) steps eta k'
                (trajectory normal model x0 steps eta w0 k')
  end.

(** The scale of the fresh noise at iteration [i] when the schedule is in
    its domain, as a real number. *)
Definition ddim_sigma_at (steps : Z) (eta : R) (i : nat) : R :=
  eta * sqrt (sched_sigma steps (S i) ^ 2 / sched_sigma steps i ^ 2)
      * sqrt (1 - sched_alpha steps i ^ 2 / sched_alpha steps (S i) ^ 2).

(** The scale kept for the noise estimate: non-finite when the fresh
    noise would exceed the next noise level. *)
Definition adjusted_sigma_at (steps : Z) (eta : R) (i : nat) : float :=
  fsqrt (Fin (sched_sigma steps (S i) ^ 2 - ddim_sigma_at steps eta i ^ 2)).

(** An error that reports a refused argument: of the three exceptions the
    sampler can end with, only the one raised by a torch argument check. *)
Definition invalid_argument_error (e : exn) : bool :=
  match e with
  | RuntimeError => true
  | IndexError | UnboundLocalError => false
  end.

(** The call is rejected with an invalid-argument error before any
    denoiser invocation. *)
Definition rejected_as_invalid_argument {A : Type} (m : M A) (w : FWorld)
  : Prop :=
  exists e, fst (m w) = Raise e /\
            invalid_argument_error e = true /\
            calls (snd (m w)) = calls w.

(** ** The training step (lines 91 to 120)

    [self.rng], the scrambled Sobol engine of dimension 1, is a stream of
    uniform values and a position in it; [self.diffusion] is a function
    like the denoiser of [sample]; [self.log_dict] appends to a log. *)

(** [x * a[:, None, None]]: every example of the batch scaled by its own
    coefficient; [a] has one entry per example. *)
Definition tscale_batch (x : Tensor) (a : list R) : Tensor :=
  zipWith (fun m c => map (map (fun e => e * c)) m) x a.

(** Sum of all elements. *)
Definition rsum (l : list R) : R := fold_right Rplus 0 l.
Definition tsum (x : Tensor) : R := rsum (map (fun m => rsum (map rsum m)) x).

(** [F.mse_loss(v, targets)]: the mean of the squared differences. *)
Definition sqdiff (a b : R) : R := (a - b) ^ 2.
Definition mse_loss (v targets : Tensor) : R :=
  tsum (tzip sqdiff v targets) / INR (numel targets).

(** Lines 100 to 107: the noised signal and the velocity target, from the
    signal, the noise and the warped timesteps. *)
Definition training_pair (reals noise : Tensor) (t : list R)
  : Tensor * Tensor :=
  let (alphas, sigmas) := get_alphas_sigmas_t t in
  let noised_reals :=
    tadd (tscale_batch reals alphas) (tscale_batch noise sigmas) in
  let targets :=
    tsub (tscale_batch noise alphas) (tscale_batch reals sigmas) in
  (noised_reals, targets).

Record TrainState : Type := mkTrain {
  sobol_pos : nat;             (* position of [self.rng] in its stream *)
  train_world : World;
  logged : list (R * R)        (* 'train/loss', 'train/mse_loss' *)
}.

(** [self.rng.draw(k)[:, 0]] *)
Definition sobol_draw (sobol : nat -> R) (k pos : nat) : list R * nat :=
  (map sobol (seq pos k), (pos + k)%nat).

(** [training_step(self, batch, batch_idx)] with [reals = batch[0]];
    returns the loss. *)
Definition training_step (sobol normal : nat -> R)
  (diffusion : Tensor -> list R -> Tensor) (reals : Tensor) (s : TrainState)
  : R * TrainState :=
  let (t, spos) := sobol_draw sobol (length reals) (sobol_pos s) in
  let t := get_crash_schedule_t t in
  let w := train_world s in
  let (noise, npos) := randn_fill normal reals (rng_pos w) in
  let (noised_reals, targets) := training_pair reals noise t in
  let v := diffusion noised_reals t in
  let mse := mse_loss v targets in
  let loss := mse in
  (loss,
   mkTrain spos (mkWorld npos (calls w ++ [(noised_reals, t)]))
           (logged s ++ [(loss, mse)])).

(** ** The demo callback (lines 131 to 174) *)

Record DemoCallback : Type := mkDemo {
  demo_every : Z;
  num_demos : Z;
  demo_samples : Z;
  demo_steps : Z;
  last_demo_step : Z
}.

(** [DemoCallback(configs)] *)
Definition DemoCallback_init (every demos samples steps : Z) : DemoCallback :=
  mkDemo every demos samples steps (-1).

(** How a call of the callback ends. *)
Inductive Outcome : Type :=
| Returned
| RaisedZeroDivision          (* [%] with a zero divisor *)
| Raised (e : exn).

(** The callback object, the world, and what was printed: on stdout the
    shape of a tensor (recorded with the tensor), on stderr an exception. *)
Record DemoState : Type := mkDemoState {
  demo_self : DemoCallback;
  demo_world : FWorld;
  demo_stdout : list FTensor;
  demo_stderr : list exn
}.

(** [torch.randn([a, b, c])]: a negative size is refused; otherwise one
    draw per element, in row-major order. *)
Definition randn (normal : nat -> R) (a b c : Z) : M FTensor :=
  if ((a <? 0) || (b <? 0) || (c <? 0))%Z then raise RuntimeError
  else randn_like normal
         (repeat (repeat (repeat (Fin 0) (Z.to_nat c)) (Z.to_nat b))
                 (Z.to_nat a)).

(** [on_train_batch_end]; [rank_zero] tells whether the process has rank
    0, the only one [@rank_zero_only] lets through; [global_step] is
    [trainer.global_step], [diffusion_ema] is [module.diffusion_ema]. *)
Definition on_train_batch_end (normal : nat -> R) (rank_zero : bool)
  (diffusion_ema : FTensor -> list R -> FTensor) (global_step : Z)
  (s : DemoState) : Outcome * DemoState :=
  let self := demo_self s in
  if negb rank_zero then (Returned, s)
  else if (demo_every self =? 0)%Z then (RaisedZeroDivision, s)
  else if (negb ((global_step - 1) mod demo_every self =? 0)
           || (last_demo_step self =? global_step))%Z
  then (Returned, s)
  else
    let self := mkDemo (demo_every self) (num_demos self) (demo_samples self)
                       (demo_steps self) global_step in
    match randn normal (num_demos self) 2 (demo_samples self) (demo_world s)
    with
    | (Raise e, w) =>
        (Raised e, mkDemoState self w (demo_stdout s) (demo_stderr s))
    | (Ok noise, w) =>
        match sample normal diffusion_ema noise (demo_steps self) 0 w with
        | (Ok fakes, w') =>
            (Returned,
             mkDemoState self w' (demo_stdout s ++ [fakes]) (demo_stderr s))
        | (Raise e, w') =>
            (Returned,
             mkDemoState self w' (demo_stdout s) (demo_stderr s ++ [e]))
        end
    end.

(** ** The dataset ([Models/dataset.py])

    [self.data] is taken 2-dimensional, one row of samples per item, and
    [idx] a Python integer, of any size; [to_half] is the conversion of a
    value to half precision that [type(torch.HalfTensor)] performs, whose
    result is non-finite where the value is beyond the range of half
    precision. *)

(** What indexing can raise. *)
Inductive index_exn : Type :=
| OutOfRange      (* IndexError: the index is out of range *)
| Overflow.       (* ValueError: the index does not fit 64 bits *)

Inductive Indexed (A : Type) : Type :=
| Item (a : A)
| IndexRaise (e : index_exn).
Arguments Item {A} a.
Arguments IndexRaise {A} e.

(** The integers a signed 64-bit integer holds. *)
Definition int64 (i : Z) : Prop := (- 2 ^ 63 <= i < 2 ^ 63)%Z.
Definition int64b (i : Z) : bool := ((- 2 ^ 63 <=? i) && (i <? 2 ^ 63))%Z.

(** [l[i]] on the first dimension of a tensor: the index is converted to
    a 64-bit integer; negative indices count from the end. *)
Definition index_row {A : Type} (l : list A) (i : Z) : Indexed A :=
  if negb (int64b i) then IndexRaise Overflow
  else
    let n := Z.of_nat (length l) in
    let k := if (i <? 0)%Z then (n + i)%Z else i in
    if ((0 <=? k) && (k <? n))%Z then
      match nth_error l (Z.to_nat k) with
      | Some a => Item a
      | None => IndexRaise OutOfRange
      end
    else IndexRaise OutOfRange.

(** [__len__] *)
Definition SampleDataset_len (data : list (list float)) : Z :=
  Z.of_nat (length data).

(** [__getitem__]: the row repeated as two channels, in half precision,
    and the index as it was given. *)
Definition SampleDataset_getitem (to_half : float -> float)
  (data : list (list float)) (idx : Z) : Indexed (list (list float) * Z) :=
  match index_row data idx with
  | IndexRaise e => IndexRaise e
  | Item row =>
      let out := [row; row] in
      let out := map (map to_half) out in
      Item (out, idx)
  end.

(** ** The zero denoiser

    The denoiser that predicts no velocity, [torch.zeros_like(x)], and
    the factor by which [k] deterministic iterations with it scale the
    signal. *)
Definition zero_velocity : FTensor -> list R -> FTensor :=
  fun x _ => tmap (fun _ => Fin 0) x.

Fixpoint zero_gain (steps : Z) (k : nat) : R :=
  match k with
  | O => 1
  | S k' =>
      zero_gain steps k'
      * (sched_alpha steps k' * sched_alpha steps k
         + sched_sigma steps k' * sched_sigma steps k)
  end.

(** ** Facts about the schedule *)

Section ScheduleFacts.

Lemma PI_neq_0 : PI <> 0.
Proof. pose proof PI_RGT_0; lra. Qed.

Lemma half_turn_scale (a : R) : a / PI * 2 * PI / 2 = a.
Proof. field. apply PI_neq_0. Qed.

Lemma angle_of_unit (t : R) : 0 <= t <= 1 -> 0 <= t * PI / 2 <= PI / 2.
Proof. intros [H0 H1]. pose proof PI_RGT_0. split; nra. Qed.

(** On the upper-right quarter of the unit circle [atan2] is the angle. *)
Lemma atan2_sin_cos (th : R) :
  0 <= th <= PI / 2 -> atan2 (sin th) (cos th) = th.
Proof.
  intros [Hlo Hhi]. unfold atan2.
  destruct (Rle_lt_or_eq_dec _ _ Hhi) as [Hlt | Heq].
  - assert (Hc : 0 < cos th) by (apply cos_gt_0; lra).
    destruct (Rlt_dec 0 (cos th)) as [_ | Hn]; [ | contradiction ].
    change (sin th / cos th) with (tan th).
    apply atan_tan. lra.
  - subst th. rewrite cos_PI2, sin_PI2.
    destruct (Rlt_dec 0 0) as [H | _]; [ lra | ].
    destruct (Rlt_dec 0 1) as [_ | H]; [ reflexivity | lra ].
Qed.

(** For a noise level [s] in [0,1], the warp's pair [(sqrt (1-s^2), s)]
    has angle [asin s]. *)
Lemma atan2_unit_pair (s : R) :
  0 <= s <= 1 -> atan2 s (sqrt (1 - s ^ 2)) = asin s.
Proof.
  intros [H0 H1].
  destruct (Rle_lt_or_eq_dec _ _ H1) as [Hlt | Heq].
  - assert (Hpos : 0 < 1 - s ^ 2) by nra.
    apply sqrt_lt_R0 in Hpos.
    unfold atan2. destruct (Rlt_dec 0 (sqrt (1 - s ^ 2))) as [_ | Hn];
      [ | contradiction ].
    rewrite asin_atan by lra. now rewrite Rsqr_pow2.
  - subst s. replace (1 - 1 ^ 2) with 0 by ring.
    rewrite sqrt_0, asin_1. unfold atan2.
    destruct (Rlt_dec 0 0) as [H | _]; [ lra | ].
    destruct (Rlt_dec 0 1) as [_ | H]; [ reflexivity | lra ].
Qed.

Lemma sin_sq_unit (x : R) : 0 <= sin x ^ 2 <= 1.
Proof. pose proof (SIN_bound x). nra. Qed.

(** Closed form of the warp. *)
Lemma get_crash_schedule_asin (t : R) :
  get_crash_schedule t = asin (sin (t * PI / 2) ^ 2) / PI * 2.
Proof.
  unfold get_crash_schedule, alpha_sigma_to_t.
  now rewrite atan2_unit_pair by apply sin_sq_unit.
Qed.

Lemma asin_monotone (a b : R) :
  -1 <= a -> a <= b -> b <= 1 -> asin a <= asin b.
Proof.
  intros Ha Hab Hb.
  destruct (Rle_dec (asin a) (asin b)) as [H | H]; [ exact H | exfalso ].
  apply Rnot_le_lt in H.
  pose proof (asin_bound a) as Ba. pose proof (asin_bound b) as Bb.
  assert (Hs : sin (asin b) < sin (asin a)) by (apply sin_increasing_1; lra).
  rewrite !sin_asin in Hs by lra. lra.
Qed.

Lemma sin_sq_monotone (t1 t2 : R) :
  0 <= t1 -> t1 <= t2 -> t2 <= 1 ->
  sin (t1 * PI / 2) ^ 2 <= sin (t2 * PI / 2) ^ 2.
Proof.
  intros H0 H12 H1.
  pose proof (angle_of_unit t1 ltac:(lra)) as A1.
  pose proof (angle_of_unit t2 ltac:(lra)) as A2.
  pose proof PI_RGT_0 as Hpi.
  assert (S1 : 0 <= sin (t1 * PI / 2)) by (apply sin_ge_0; lra).
  assert (S12 : sin (t1 * PI / 2) <= sin (t2 * PI / 2)).
  { assert (t1 * PI / 2 <= t2 * PI / 2) by nra.
    apply sin_incr_1; lra. }
  simpl. nra.
Qed.

End ScheduleFacts.

(** ** The schedule: coefficients, inverse map and warp *)

(** C4: get_alphas_sigmas returns (cos(t*pi/2), sin(t*pi/2)) for every t;
    the pair lies on the unit circle; on [0,1] alpha strictly decreases and
    sigma strictly increases with t. *)
Theorem get_alphas_sigmas_unit_circle_monotone :
  (forall t, get_alphas_sigmas t = (cos (t * PI / 2), sin (t * PI / 2))) /\
  (forall t, fst (get_alphas_sigmas t) ^ 2 + snd (get_alphas_sigmas t) ^ 2 = 1) /\
  (forall t1 t2, 0 <= t1 -> t1 < t2 -> t2 <= 1 ->
     fst (get_alphas_sigmas t2) < fst (get_alphas_sigmas t1) /\
     snd (get_alphas_sigmas t1) < snd (get_alphas_sigmas t2)).
Proof.
  split; [ reflexivity | split ].
  - intros t. simpl. pose proof (sin2_cos2 (t * PI / 2)) as H.
    unfold Rsqr in H. lra.
  - intros t1 t2 H0 H12 H1. simpl.
    pose proof (angle_of_unit t1 ltac:(lra)) as A1.
    pose proof (angle_of_unit t2 ltac:(lra)) as A2.
    pose proof PI_RGT_0 as Hpi.
    assert (Hlt : t1 * PI / 2 < t2 * PI / 2) by nra.
    split.
    + apply cos_decreasing_1; lra.
    + apply sin_increasing_1; lra.
Qed.

Lemma get_alphas_sigmas_unit_circle_monotone_witness :
  fst (get_alphas_sigmas 1) < fst (get_alphas_sigmas 0) /\
  snd (get_alphas_sigmas 0) < snd (get_alphas_sigmas 1).
Proof.
  apply (proj2 (proj2 get_alphas_sigmas_unit_circle_monotone) 0 1); lra.
Defined.

(** C5: for every t in [0,1], the endpoints included,
    alpha_sigma_to_t (get_alphas_sigmas t) = t; and alpha_sigma_to_t is
    atan2(sigma, alpha) / (pi/2). *)
Theorem alpha_sigma_to_t_round_trip :
  (forall t, 0 <= t <= 1 ->
     alpha_sigma_to_t (fst (get_alphas_sigmas t)) (snd (get_alphas_sigmas t))
     = t) /\
  (forall alpha sigma,
     alpha_sigma_to_t alpha sigma = atan2 sigma alpha / (PI / 2)).
Proof.
  split.
  - intros t Ht. unfold alpha_sigma_to_t. simpl.
    rewrite atan2_sin_cos by (apply angle_of_unit; exact Ht).
    field. apply PI_neq_0.
  - intros alpha sigma. unfold alpha_sigma_to_t. field. apply PI_neq_0.
Qed.

Lemma alpha_sigma_to_t_round_trip_witness :
  alpha_sigma_to_t (fst (get_alphas_sigmas (1 / 2)))
                   (snd (get_alphas_sigmas (1 / 2))) = 1 / 2.
Proof.
  apply (proj1 alpha_sigma_to_t_round_trip (1 / 2)); lra.
Defined.

(** C6: get_crash_schedule fixes 0 and 1 and is non-decreasing on [0,1]. *)
Theorem get_crash_schedule_endpoints_monotone :
  get_crash_schedule 0 = 0 /\
  get_crash_schedule 1 = 1 /\
  (forall t1 t2, 0 <= t1 -> t1 <= t2 -> t2 <= 1 ->
     get_crash_schedule t1 <= get_crash_schedule t2).
Proof.
  repeat split.
  - rewrite get_crash_schedule_asin.
    replace (0 * PI / 2) with 0 by field.
    rewrite sin_0. replace (0 ^ 2) with 0 by ring.
    rewrite asin_0. field. apply PI_neq_0.
  - rewrite get_crash_schedule_asin.
    replace (1 * PI / 2) with (PI / 2) by field.
    rewrite sin_PI2. replace (1 ^ 2) with 1 by ring.
    rewrite asin_1. field. apply PI_neq_0.
  - intros t1 t2 H0 H12 H1. rewrite !get_crash_schedule_asin.
    pose proof (sin_sq_unit (t1 * PI / 2)) as U1.
    pose proof (sin_sq_unit (t2 * PI / 2)) as U2.
    pose proof (sin_sq_monotone t1 t2 H0 H12 H1) as Hs.
    assert (Ha : asin (sin (t1 * PI / 2) ^ 2) <= asin (sin (t2 * PI / 2) ^ 2))
      by (apply asin_monotone; lra).
    pose proof PI_RGT_0 as Hpi.
    unfold Rdiv. apply Rmult_le_compat_r; [ lra | ].
    apply Rmult_le_compat_r; [ | exact Ha ].
    left. now apply Rinv_0_lt_compat.
Qed.

Lemma get_crash_schedule_endpoints_monotone_witness :
  get_crash_schedule 0 <= get_crash_schedule 1.
Proof.
  apply (proj2 (proj2 get_crash_schedule_endpoints_monotone) 0 1); lra.
Defined.

Lemma warped_sigma_sq (t : R) : warped_sigma t = sin (t * PI / 2) ^ 2.
Proof.
  unfold warped_sigma. simpl. rewrite get_crash_schedule_asin.
  rewrite half_turn_scale. apply sin_asin.
  pose proof (sin_sq_unit (t * PI / 2)). lra.
Qed.

Lemma third_angle : 1 / 3 * PI / 2 = PI / 6.
Proof. field. Qed.

(** Sines of two ordered angles of the first quarter turn. *)
Lemma sin_pair_ordered (t1 t2 : R) :
  0 <= t1 -> t1 < t2 -> t2 <= 1 ->
  0 <= sin (t1 * PI / 2) /\ sin (t1 * PI / 2) < sin (t2 * PI / 2).
Proof.
  intros H0 H12 H1.
  pose proof (angle_of_unit t1 ltac:(lra)) as A1.
  pose proof (angle_of_unit t2 ltac:(lra)) as A2.
  pose proof PI_RGT_0 as Hpi.
  assert (Hlt : t1 * PI / 2 < t2 * PI / 2) by nra.
  split; [ apply sin_ge_0; lra | apply sin_increasing_1; lra ].
Qed.

Lemma sin_le_half (t : R) : 0 <= t -> t <= 1 / 3 -> sin (t * PI / 2) <= 1 / 2.
Proof.
  intros H0 H1. rewrite <- sin_PI6, <- third_angle.
  pose proof PI_RGT_0 as Hpi.
  assert (t * PI / 2 <= 1 / 3 * PI / 2) by nra.
  apply sin_incr_1; nra.
Qed.

Lemma sin_ge_half (t : R) : 1 / 3 <= t -> t <= 1 -> 1 / 2 <= sin (t * PI / 2).
Proof.
  intros H0 H1. rewrite <- sin_PI6, <- third_angle.
  pose proof PI_RGT_0 as Hpi.
  assert (1 / 3 * PI / 2 <= t * PI / 2) by nra.
  apply sin_incr_1; nra.
Qed.

Lemma unwarped_steeper_early : steeper_on unwarped_sigma warped_sigma 0 (1 / 3).
Proof.
  intros t1 t2 H0 H12 H1. rewrite !warped_sigma_sq. unfold unwarped_sigma. simpl.
  destruct (sin_pair_ordered t1 t2 H0 H12 ltac:(lra)) as [Hn Hlt].
  pose proof (sin_le_half t2 ltac:(lra) H1) as Hh.
  nra.
Qed.

Lemma warped_steeper_late : steeper_on warped_sigma unwarped_sigma (1 / 3) 1.
Proof.
  intros t1 t2 H0 H12 H1. rewrite !warped_sigma_sq. unfold unwarped_sigma. simpl.
  destruct (sin_pair_ordered t1 t2 ltac:(lra) H12 H1) as [Hn Hlt].
  pose proof (sin_ge_half t1 H0 ltac:(lra)) as Hh.
  nra.
Qed.

(** The warp's claimed steepness near the clean end fails: on no interval starting at t = 0 does the warped
    noise coefficient grow more steeply than the unwarped one. *)
Lemma warp_not_steeper_near_0 : ~ steeper_near_0 warped_sigma unwarped_sigma.
Proof.
  intros [d [Hd Hst]].
  set (u := Rmin d (1 / 3)).
  assert (Hu : 0 < u <= 1 / 3 /\ u <= d).
  { unfold u. pose proof (Rmin_l d (1 / 3)). pose proof (Rmin_r d (1 / 3)).
    repeat split; try lra. apply Rmin_glb_lt; lra. }
  pose proof (Hst 0 u ltac:(lra) ltac:(lra) ltac:(lra)) as Hw.
  pose proof (unwarped_steeper_early 0 u ltac:(lra) ltac:(lra) ltac:(lra)) as Hn.
  lra.
Qed.

(** C7, amended: the warped noise coefficient is sin(t*pi/2)^2; against the
    unwarped sin(t*pi/2) it grows less steeply on [0,1/3], the clean end,
    and more steeply on [1/3,1]; it lies strictly below it inside (0,1). *)
Theorem crash_warp_delays_noise_growth :
  (forall t, warped_sigma t = sin (t * PI / 2) ^ 2) /\
  steeper_on unwarped_sigma warped_sigma 0 (1 / 3) /\
  steeper_on warped_sigma unwarped_sigma (1 / 3) 1 /\
  (forall t, 0 < t -> t < 1 -> warped_sigma t < unwarped_sigma t).
Proof.
  split; [ exact warped_sigma_sq | ].
  split; [ exact unwarped_steeper_early | ].
  split; [ exact warped_steeper_late | ].
  intros t H0 H1. rewrite warped_sigma_sq. unfold unwarped_sigma. simpl.
  destruct (sin_pair_ordered 0 t ltac:(lra) H0 ltac:(lra)) as [_ Hpos].
  destruct (sin_pair_ordered t 1 ltac:(lra) H1 ltac:(lra)) as [_ Hlt].
  replace (0 * PI / 2) with 0 in Hpos by field. rewrite sin_0 in Hpos.
  replace (1 * PI / 2) with (PI / 2) in Hlt by field. rewrite sin_PI2 in Hlt.
  nra.
Qed.

Lemma crash_warp_delays_noise_growth_witness :
  warped_sigma (1 / 2) < unwarped_sigma (1 / 2).
Proof.
  apply (proj2 (proj2 (proj2 crash_warp_delays_noise_growth)) (1 / 2)); lra.
Defined.

(** ** Tensors: shapes and the velocity recombination *)

Section TensorFacts.

Lemma same_shape_refl {A : Type} (x : list (list (list A))) : same_shape x x.
Proof.
  unfold same_shape. induction x as [| m x IH]; constructor; [ | exact IH ].
  induction m as [| r m IHm]; constructor; [ reflexivity | exact IHm ].
Qed.

Lemma Forall2_flip_sym {A B : Type} (P : A -> B -> Prop) (Q : B -> A -> Prop)
  (l : list A) (l' : list B) :
  (forall a b, P a b -> Q b a) -> Forall2 P l l' -> Forall2 Q l' l.
Proof. intros Hs H. induction H; constructor; auto. Qed.

Lemma Forall2_chain {A B C : Type} (P : A -> B -> Prop) (Q : B -> C -> Prop)
  (S : A -> C -> Prop) (l1 : list A) (l2 : list B) (l3 : list C) :
  (forall a b c, P a b -> Q b c -> S a c) ->
  Forall2 P l1 l2 -> Forall2 Q l2 l3 -> Forall2 S l1 l3.
Proof.
  intros Ht H. revert l3.
  induction H as [| a b l1 l2 Hab H IH]; intros l3 H3; inversion H3; subst;
    constructor; eauto.
Qed.

Lemma same_shape_sym {A B : Type} (x : list (list (list A)))
  (y : list (list (list B))) : same_shape x y -> same_shape y x.
Proof.
  apply Forall2_flip_sym. intros a b. apply Forall2_flip_sym.
  intros r r' H. now symmetry.
Qed.

Lemma same_shape_trans {A B C : Type} (x : list (list (list A)))
  (y : list (list (list B))) (z : list (list (list C))) :
  same_shape x y -> same_shape y z -> same_shape x z.
Proof.
  apply Forall2_chain. intros a b c. apply Forall2_chain.
  intros r1 r2 r3 H1 H2. now rewrite H1.
Qed.

Lemma zipWith_length {A B C : Type} (f : A -> B -> C) (l : list A)
  (l' : list B) :
  length l = length l' -> length (zipWith f l l') = length l.
Proof.
  revert l'. induction l as [| a l IH]; intros [| b l'] H; simpl in *;
    try discriminate; auto.
Qed.

Lemma zipWith_Forall2 {A B C : Type} (f : A -> B -> C)
  (Q : A -> B -> Prop) (P : C -> A -> Prop) (l : list A) (l' : list B) :
  (forall a b, Q a b -> P (f a b) a) ->
  Forall2 Q l l' -> Forall2 P (zipWith f l l') l.
Proof. intros Hf H. induction H; simpl; constructor; auto. Qed.

Lemma tzip_shape {A B C : Type} (f : A -> B -> C)
  (x : list (list (list A))) (y : list (list (list B))) :
  same_shape x y -> same_shape (tzip f x y) x.
Proof.
  apply zipWith_Forall2. intros m m'. apply zipWith_Forall2.
  intros r r'. apply zipWith_length.
Qed.

Lemma map_Forall2 {A B : Type} (f : A -> B) (P : B -> A -> Prop)
  (l : list A) :
  (forall a, P (f a) a) -> Forall2 P (map f l) l.
Proof. intros Hf. induction l; simpl; constructor; auto. Qed.

Lemma tmap_shape {A B : Type} (f : A -> B) (x : list (list (list A))) :
  same_shape (tmap f x) x.
Proof.
  apply map_Forall2. intros m. apply map_Forall2.
  intros r. apply length_map.
Qed.

(** Shape of [a op b] when both operands have the shape of [x]. *)
Lemma tzip_shape_of {A B C D : Type} (f : A -> B -> C)
  (a : list (list (list A))) (b : list (list (list B)))
  (x : list (list (list D))) :
  same_shape a x -> same_shape b x -> same_shape (tzip f a b) x.
Proof.
  intros Ha Hb. apply same_shape_trans with a; [ | exact Ha ].
  apply tzip_shape. apply same_shape_trans with x; [ exact Ha | ].
  now apply same_shape_sym.
Qed.

Lemma tscale_shape_of {D : Type} (a : Tensor) (x : list (list (list D)))
  (c : R) :
  same_shape a x -> same_shape (tscale a c) x.
Proof. intros Ha. apply same_shape_trans with a; [ apply tmap_shape | exact Ha ]. Qed.

Lemma ftscale_shape_of {D : Type} (a : FTensor) (x : list (list (list D)))
  (c : float) :
  same_shape a x -> same_shape (ftscale a c) x.
Proof. intros Ha. apply same_shape_trans with a; [ apply tmap_shape | exact Ha ]. Qed.

(** [pred * alpha + eps * sigma] gives [x] back on one row, for a
    velocity of finite values. *)
Lemma recombine_row (alpha sigma : R) (r r' : list float) :
  alpha ^ 2 + sigma ^ 2 = 1 -> length r' = length r ->
  Forall (fun e => e <> NonFinite) r' ->
  zipWith fadd
    (map (fun e => fmul e (Fin alpha))
       (zipWith fsub (map (fun e => fmul e (Fin alpha)) r)
                     (map (fun e => fmul e (Fin sigma)) r')))
    (map (fun e => fmul e (Fin sigma))
       (zipWith fadd (map (fun e => fmul e (Fin sigma)) r)
                     (map (fun e => fmul e (Fin alpha)) r')))
  = r.
Proof.
  intros Hc. revert r'.
  induction r as [| a r IH]; intros [| b r'] H Hf; simpl in H; simpl;
    try discriminate; [ reflexivity | ].
  inversion Hf as [| b' r'' Hb Hr']; subst.
  f_equal; [ | apply IH; [ congruence | exact Hr' ] ].
  destruct a as [a |], b as [b |]; simpl; try reflexivity;
    [ | now contradiction Hb ].
  f_equal.
  replace ((a * alpha - b * sigma) * alpha + (a * sigma + b * alpha) * sigma)
    with (a * (alpha ^ 2 + sigma ^ 2)) by ring.
  rewrite Hc. ring.
Qed.

(** The same on whole tensors. *)
Lemma recombine_tensor (alpha sigma : R) (x v : FTensor) :
  alpha ^ 2 + sigma ^ 2 = 1 -> same_shape v x -> tfinite v ->
  ftadd (ftscale (ftsub (ftscale x (Fin alpha)) (ftscale v (Fin sigma)))
                 (Fin alpha))
        (ftscale (ftadd (ftscale x (Fin sigma)) (ftscale v (Fin alpha)))
                 (Fin sigma))
  = x.
Proof.
  intros Hc H. unfold tfinite, ftadd, ftsub, ftscale, tzip, tmap.
  induction H as [| m' m v x Hm H IH]; intros Hf; simpl; [ reflexivity | ].
  inversion Hf as [| m0 v0 Hfm Hfv]; subst.
  f_equal; [ | exact (IH Hfv) ].
  clear IH H Hf Hfv.
  induction Hm as [| r' r m' m Hr Hm IH]; simpl; [ reflexivity | ].
  inversion Hfm as [| r0 m0 Hfr Hfm']; subst.
  f_equal; [ | exact (IH Hfm') ].
  now apply recombine_row.
Qed.

(** A non-finite factor or summand makes every value non-finite. *)
Lemma tnonfinite_scale (x : FTensor) : tnonfinite (ftscale x NonFinite).
Proof.
  unfold tnonfinite, ftscale, tmap.
  induction x as [| m x IH]; simpl; constructor; [ | exact IH ].
  induction m as [| r m IHm]; simpl; constructor; [ | exact IHm ].
  induction r as [| e r IHr]; simpl; constructor; [ | exact IHr ].
  now destruct e.
Qed.

Lemma tnonfinite_zip (f : float -> float -> float) (a b : FTensor) :
  (forall u v, u = NonFinite \/ v = NonFinite -> f u v = NonFinite) ->
  tnonfinite a \/ tnonfinite b -> tnonfinite (tzip f a b).
Proof.
  intros Hf. unfold tnonfinite, tzip. revert b.
  induction a as [| m a IH]; intros [| m' b] H; simpl; constructor.
  - assert (Hm : Forall (Forall (fun e => e = NonFinite)) m \/
                 Forall (Forall (fun e => e = NonFinite)) m')
      by (destruct H as [H | H]; inversion H; auto).
    clear IH H. revert m' Hm.
    induction m as [| r m IHm]; intros [| r' m'] H; simpl; constructor.
    + assert (Hr : Forall (fun e => e = NonFinite) r \/
                   Forall (fun e => e = NonFinite) r')
        by (destruct H as [H | H]; inversion H; auto).
      clear IHm H. revert r' Hr.
      induction r as [| e r IHr]; intros [| e' r'] H; simpl; constructor.
      * apply Hf. destruct H as [H | H]; inversion H; auto.
      * apply IHr. destruct H as [H | H]; inversion H; auto.
    + apply IHm. destruct H as [H | H]; inversion H; auto.
  - apply IH. destruct H as [H | H]; inversion H; auto.
Qed.

Lemma fadd_absorbs (u v : float) :
  u = NonFinite \/ v = NonFinite -> fadd u v = NonFinite.
Proof. intros [-> | ->]; [ reflexivity | now destruct u ]. Qed.

Lemma fsub_absorbs (u v : float) :
  u = NonFinite \/ v = NonFinite -> fsub u v = NonFinite.
Proof. intros [-> | ->]; [ reflexivity | now destruct u ]. Qed.

Lemma tnonfinite_add (a b : FTensor) :
  tnonfinite a \/ tnonfinite b -> tnonfinite (ftadd a b).
Proof. apply tnonfinite_zip. exact fadd_absorbs. Qed.

Lemma tnonfinite_sub (a b : FTensor) :
  tnonfinite a \/ tnonfinite b -> tnonfinite (ftsub a b).
Proof. apply tnonfinite_zip. exact fsub_absorbs. Qed.

Lemma tnonfinite_scale_of (x : FTensor) (a : float) :
  tnonfinite x -> tnonfinite (ftscale x a).
Proof.
  unfold tnonfinite, ftscale, tmap. intros H.
  induction H as [| m x Hm H IH]; simpl; constructor; [ | exact IH ].
  clear IH H. induction Hm as [| r m Hr Hm IH]; simpl; constructor;
    [ | exact IH ].
  clear IH Hm. induction Hr as [| e r He Hr IH]; simpl; constructor;
    [ now rewrite He | exact IH ].
Qed.

(** Two tensors of one shape whose values are all non-finite are equal. *)
Lemma tnonfinite_unique (a b : FTensor) :
  same_shape a b -> tnonfinite a -> tnonfinite b -> a = b.
Proof.
  unfold tnonfinite. intros H.
  induction H as [| m m' a b Hm H IH]; intros Ha Hb; [ reflexivity | ].
  inversion Ha as [| ? ? Ham Ha']; inversion Hb as [| ? ? Hbm Hb']; subst.
  f_equal; [ | exact (IH Ha' Hb') ].
  clear IH H Ha Hb Ha' Hb'.
  induction Hm as [| r r' m m' Hr Hm IH]; [ reflexivity | ].
  inversion Ham as [| ? ? Har Ham']; inversion Hbm as [| ? ? Hbr Hbm']; subst.
  f_equal; [ | exact (IH Ham' Hbm') ].
  clear IH Hm Ham Hbm Ham' Hbm'. revert r' Hr Hbr.
  induction Har as [| e r He Har IH]; intros [| e' r'] Hr Hbr;
    simpl in Hr; try discriminate; [ reflexivity | ].
  inversion Hbr as [| ? ? He' Hbr']; subst.
  f_equal. apply IH; [ congruence | exact Hbr' ].
Qed.

(** Real numbers stay real numbers under the sampler's finite
    operations. *)
Lemma tfinite_scale (x : FTensor) (c : R) :
  tfinite x -> tfinite (ftscale x (Fin c)).
Proof.
  unfold tfinite, ftscale, tmap. intros H.
  induction H as [| m x Hm H IH]; simpl; constructor; [ | exact IH ].
  clear IH H. induction Hm as [| r m Hr Hm IH]; simpl; constructor;
    [ | exact IH ].
  clear IH Hm. induction Hr as [| e r He Hr IH]; simpl; constructor;
    [ | exact IH ].
  destruct e; [ discriminate | now contradiction He ].
Qed.

Lemma tfinite_zip (f : float -> float -> float) (a b : FTensor) :
  (forall u v, u <> NonFinite -> v <> NonFinite -> f u v <> NonFinite) ->
  tfinite a -> tfinite b -> tfinite (tzip f a b).
Proof.
  intros Hf. unfold tfinite, tzip. intros Ha. revert b.
  induction Ha as [| m a Hm Ha IH]; intros [| m' b] Hb; simpl; constructor.
  - inversion Hb as [| ? ? Hm' _]; subst. clear IH Ha Hb. revert m' Hm'.
    induction Hm as [| r m Hr Hm IH]; intros [| r' m'] Hm'; simpl;
      constructor.
    + inversion Hm' as [| ? ? Hr' _]; subst. clear IH Hm Hm'. revert r' Hr'.
      induction Hr as [| e r He Hr IH]; intros [| e' r'] Hr'; simpl;
        constructor.
      * inversion Hr'; subst. now apply Hf.
      * apply IH. now inversion Hr'.
    + apply IH. now inversion Hm'.
  - apply IH. now inversion Hb.
Qed.

Lemma tfinite_add (a b : FTensor) :
  tfinite a -> tfinite b -> tfinite (ftadd a b).
Proof.
  apply tfinite_zip. intros [u |] [v |] Hu Hv; try discriminate;
    first [ now contradiction Hu | now contradiction Hv ].
Qed.

Lemma tfinite_sub (a b : FTensor) :
  tfinite a -> tfinite b -> tfinite (ftsub a b).
Proof.
  apply tfinite_zip. intros [u |] [v |] Hu Hv; try discriminate;
    first [ now contradiction Hu | now contradiction Hv ].
Qed.

(** The recombination of a state whose values are all non-finite is that
    state again, whatever the velocity. *)
Lemma recombine_nonfinite (alpha sigma : R) (x v : FTensor) :
  same_shape v x -> tnonfinite x ->
  ftadd (ftscale (ftsub (ftscale x (Fin alpha)) (ftscale v (Fin sigma)))
                 (Fin alpha))
        (ftscale (ftadd (ftscale x (Fin sigma)) (ftscale v (Fin alpha)))
                 (Fin sigma))
  = x.
Proof.
  intros Hv Hx. apply tnonfinite_unique; [ | | exact Hx ].
  - apply tzip_shape_of; apply ftscale_shape_of;
      apply tzip_shape_of; apply ftscale_shape_of;
      first [ apply same_shape_refl | exact Hv ].
  - apply tnonfinite_add. left. apply tnonfinite_scale_of.
    apply tnonfinite_sub. left. now apply tnonfinite_scale_of.
Qed.

End TensorFacts.

(** ** The primitives of the sampler *)

Section PrimitiveFacts.

Lemma index_map_seq (g : nat -> R) (k i : nat) :
  (i < k)%nat -> index (map g (seq 0 k)) (Z.of_nat i) = Ok (g i).
Proof.
  intros H. unfold index. rewrite length_map, length_seq.
  replace ((0 <=? Z.of_nat i) && (Z.of_nat i <? Z.of_nat k))%Z with true.
  2:{ symmetry. apply andb_true_iff.
      split; [ apply Z.leb_le | apply Z.ltb_lt ]; lia. }
  rewrite Nat2Z.id. f_equal.
  rewrite (nth_indep _ 0 (g 0%nat)) by (rewrite length_map, length_seq; exact H).
  rewrite map_nth. now rewrite seq_nth by exact H.
Qed.

Lemma broadcast_timestep (t_i : R) (batch : nat) :
  map (fun o => o * t_i) (repeat 1 batch) = repeat t_i batch.
Proof. rewrite map_repeat. now rewrite Rmult_1_l. Qed.

Lemma linspace_point (steps : Z) (k : nat) :
  (1 <= steps)%Z ->
  1 + INR k * ((0 - 1) / IZR (steps + 1 - 1)) = timestep steps k.
Proof.
  intros H. unfold timestep. rewrite Z.add_simpl_r.
  assert (IZR steps <> 0) by (apply not_0_IZR; lia).
  now field.
Qed.

Lemma linspace_run (steps : Z) :
  (1 <= steps)%Z ->
  linspace 1 0 (steps + 1)
  = Ok (map (timestep steps) (seq 0 (Z.to_nat steps))
        ++ [timestep steps (Z.to_nat steps)]).
Proof.
  intros H. unfold linspace.
  destruct (Z.ltb_spec (steps + 1) 0) as [Hn | _]; [ lia | ].
  destruct (Z.eqb_spec (steps + 1) 1) as [Hn | _]; [ lia | ].
  replace (Z.to_nat (steps + 1)) with (S (Z.to_nat steps)) by lia.
  rewrite seq_S, map_app. simpl.
  rewrite linspace_point by exact H. f_equal. f_equal.
  apply map_ext. intros k. now apply linspace_point.
Qed.

Lemma noise_schedule_run (steps : Z) :
  (1 <= steps)%Z ->
  noise_schedule steps =
  Ok (map (sched_t steps) (seq 0 (Z.to_nat steps)),
      map (sched_alpha steps) (seq 0 (Z.to_nat steps)),
      map (sched_sigma steps) (seq 0 (Z.to_nat steps))).
Proof.
  intros H. unfold noise_schedule. rewrite (linspace_run steps H).
  rewrite removelast_last.
  unfold get_crash_schedule_t, get_alphas_sigmas_t.
  rewrite !map_map. reflexivity.
Qed.

(** The linear timesteps start at 1 and stay above 0. *)
Lemma timestep_range (steps : Z) (i : nat) :
  (Z.of_nat i < steps)%Z -> 0 < timestep steps i <= 1.
Proof.
  intros H. unfold timestep.
  assert (Hs : 0 < IZR steps) by (apply IZR_lt; lia).
  assert (Hi : 0 <= INR i < IZR steps).
  { rewrite INR_IZR_INZ. split; [ apply IZR_le; lia | apply IZR_lt; lia ]. }
  assert (Hq : 0 <= INR i / IZR steps < 1).
  { split.
    - apply Rmult_le_pos; [ lra | left; now apply Rinv_0_lt_compat ].
    - apply Rmult_lt_reg_r with (IZR steps); [ exact Hs | ].
      unfold Rdiv. rewrite Rmult_assoc, Rinv_l by lra. lra. }
  lra.
Qed.

Lemma for_loop_app (body : Z -> Locals -> M Locals) (l l' : list Z)
  (st : Locals) (w : FWorld) :
  for_loop body (l ++ l') st w
  = bind (for_loop body l st) (for_loop body l') w.
Proof.
  revert st w. induction l as [| i l IH]; intros st w; simpl.
  - reflexivity.
  - unfold bind. destruct (body i st w) as [[st' | e] w']; simpl.
    + rewrite IH. reflexivity.
    + reflexivity.
Qed.

Lemma range_of_nat (k : nat) : range (Z.of_nat k) = map Z.of_nat (seq 0 k).
Proof. unfold range. now rewrite Nat2Z.id. Qed.

Lemma range_succ (k : nat) :
  range (Z.of_nat k + 1) = range (Z.of_nat k) ++ [Z.of_nat k].
Proof.
  replace (Z.of_nat k + 1)%Z with (Z.of_nat (S k)) by lia.
  rewrite !range_of_nat, seq_S, map_app. reflexivity.
Qed.

Lemma draw_list_Forall2 {A B : Type} (draw : A -> nat -> B * nat)
  (P : B -> A -> Prop) (l : list A) (pos : nat) :
  (forall a p, P (fst (draw a p)) a) ->
  Forall2 P (fst (draw_list draw l pos)) l.
Proof.
  intros Hd. revert pos. induction l as [| a l IH]; intros pos; simpl.
  - constructor.
  - pose proof (Hd a pos) as Ha. destruct (draw a pos) as [b pos1].
    pose proof (IH pos1) as Hl. destruct (draw_list draw l pos1) as [r pos2].
    simpl in *. now constructor.
Qed.

Lemma draw_list_pos {A B : Type} (draw : A -> nat -> B * nat)
  (size : A -> nat) (l : list A) (pos : nat) :
  (forall a p, snd (draw a p) = (p + size a)%nat) ->
  snd (draw_list draw l pos) = (pos + list_sum (map size l))%nat.
Proof.
  intros Hd. revert pos. induction l as [| a l IH]; intros pos; simpl.
  - lia.
  - pose proof (Hd a pos) as Ha. destruct (draw a pos) as [b pos1].
    pose proof (IH pos1) as Hl. destruct (draw_list draw l pos1) as [r pos2].
    simpl in *. lia.
Qed.

Lemma draw_list_length {A B : Type} (draw : A -> nat -> B * nat)
  (l : list A) (pos : nat) :
  length (fst (draw_list draw l pos)) = length l.
Proof.
  revert pos. induction l as [| a l IH]; intros pos; simpl.
  - reflexivity.
  - destruct (draw a pos) as [b pos1].
    pose proof (IH pos1) as Hl. destruct (draw_list draw l pos1) as [r pos2].
    simpl in *. now rewrite Hl.
Qed.

Lemma list_sum_ones {A : Type} (l : list A) :
  list_sum (map (fun _ => 1%nat) l) = length l.
Proof. induction l as [| a l IH]; simpl; [ reflexivity | now rewrite IH ]. Qed.

(** [randn_like] returns a tensor of the shape of its argument and moves
    the generator on by one position per element. *)
Lemma randn_fill_shape (normal : nat -> R) (x : Tensor) (pos : nat) :
  same_shape (fst (randn_fill normal x pos)) x.
Proof.
  unfold randn_fill. apply draw_list_Forall2. intros m p.
  apply draw_list_Forall2. intros r q. apply draw_list_length.
Qed.

Lemma randn_fill_pos (normal : nat -> R) (x : Tensor) (pos : nat) :
  snd (randn_fill normal x pos) = (pos + numel x)%nat.
Proof.
  unfold randn_fill, numel. apply draw_list_pos. intros m p.
  apply draw_list_pos. intros r q.
  rewrite (draw_list_pos _ (fun _ => 1%nat)) by (intros; simpl; lia).
  now rewrite list_sum_ones.
Qed.

Lemma frandn_fill_shape (normal : nat -> R) (x : FTensor) (pos : nat) :
  same_shape (fst (frandn_fill normal x pos)) x.
Proof.
  unfold frandn_fill. apply draw_list_Forall2. intros m p.
  apply draw_list_Forall2. intros r q. apply draw_list_length.
Qed.

Lemma frandn_fill_pos (normal : nat -> R) (x : FTensor) (pos : nat) :
  snd (frandn_fill normal x pos) = (pos + numel x)%nat.
Proof.
  unfold frandn_fill, numel. apply draw_list_pos. intros m p.
  apply draw_list_pos. intros r q.
  rewrite (draw_list_pos _ (fun _ => 1%nat)) by (intros; simpl; lia).
  now rewrite list_sum_ones.
Qed.

Lemma sched_unit_circle (steps : Z) (i : nat) :
  sched_alpha steps i ^ 2 + sched_sigma steps i ^ 2 = 1.
Proof.
  unfold sched_alpha, sched_sigma. simpl.
  pose proof (sin2_cos2 (sched_t steps i * PI / 2)) as H.
  unfold Rsqr in H. lra.
Qed.

Lemma sched_t_first : sched_t 1 0 = get_crash_schedule 1.
Proof.
  unfold sched_t, timestep. f_equal. simpl. field.
Qed.

(** For [steps < 1] the call ends in an exception with the world as it
    was: torch refuses a negative number of points, and with no iteration
    [pred] is read unbound. *)
Lemma sample_below_one (normal : nat -> R)
  (model : FTensor -> list R -> FTensor) (x : FTensor) (steps : Z) (eta : R)
  (w : FWorld) :
  (steps < 1)%Z ->
  sample normal model x steps eta w
  = (Raise (if (steps <? -1)%Z then RuntimeError else UnboundLocalError), w).
Proof.
  intros H. unfold sample, sample_loop, noise_schedule, linspace, bind, lift.
  replace (range steps) with (@nil Z)
    by (unfold range; now replace (Z.to_nat steps) with 0%nat by lia).
  destruct (Z.ltb_spec (steps + 1) 0) as [Hn | Hn];
    destruct (Z.ltb_spec steps (-1)) as [Hm | Hm]; try lia.
  - reflexivity.
  - destruct (Z.eqb_spec (steps + 1) 1); reflexivity.
Qed.

End PrimitiveFacts.

(** ** The sampling loop against its reference trajectory *)

Section LoopFacts.

Variable normal : nat -> R.
Variable model : FTensor -> list R -> FTensor.
Variable x0 : FTensor.
Variable steps : Z.
Variable eta : R.
Variable w0 : FWorld.
Hypothesis steps_pos : (1 <= steps)%Z.

Let n : nat := Z.to_nat steps.
Let body : Z -> Locals -> M Locals :=
  loop_body normal model (repeat 1 (length x0))
            (map (sched_t steps) (seq 0 n))
            (map (sched_alpha steps) (seq 0 n))
            (map (sched_sigma steps) (seq 0 n)) steps eta.
Let traj : nat -> Locals * FWorld := trajectory normal model x0 steps eta w0.

Lemma sample_loop_unfold (iters : list Z) (w : FWorld) :
  sample_loop normal model x0 steps eta iters w
  = for_loop body iters (mkLocals x0 None) w.
Proof.
  unfold sample_loop, bind, lift.
  rewrite (noise_schedule_run steps steps_pos). reflexivity.
Qed.

Lemma loop_body_iteration (i : nat) (st : Locals) (w : FWorld) :
  (i < n)%nat ->
  body (Z.of_nat i) st w
  = (Ok (fst (iteration normal model (length x0) steps eta i (st, w))),
     snd (iteration normal model (length x0) steps eta i (st, w))).
Proof.
  intros Hi. unfold body, loop_body, bind, lift, call_model, iteration.
  rewrite !index_map_seq by exact Hi. rewrite broadcast_timestep.
  destruct (Z.ltb_spec (Z.of_nat i) (steps - 1)) as [Hlt | Hge].
  - replace (Z.of_nat i + 1)%Z with (Z.of_nat (S i)) by lia.
    rewrite !index_map_seq by (unfold n; lia).
    destruct (Req_dec_T eta 0) as [He | He].
    + reflexivity.
    + unfold randn_like, ret. cbn [rng_pos calls].
      destruct (frandn_fill normal _ (rng_pos w)) as [noise pos].
      reflexivity.
  - reflexivity.
Qed.

Lemma prefix_run (k : nat) :
  (k <= n)%nat ->
  for_loop body (range (Z.of_nat k)) (mkLocals x0 None) w0
  = (Ok (fst (traj k)), snd (traj k)).
Proof.
  induction k as [| k IH]; intros Hk.
  - reflexivity.
  - replace (Z.of_nat (S k)) with (Z.of_nat k + 1)%Z by lia.
    rewrite range_succ, for_loop_app. unfold bind at 1.
    rewrite IH by lia. simpl for_loop. unfold bind at 1.
    rewrite loop_body_iteration by lia.
    unfold traj. simpl trajectory.
    fold traj. rewrite <- surjective_pairing. reflexivity.
Qed.

Lemma sample_loop_prefix (k : nat) :
  (k <= n)%nat ->
  sample_loop normal model x0 steps eta (range (Z.of_nat k)) w0
  = (Ok (fst (traj k)), snd (traj k)).
Proof. intros Hk. rewrite sample_loop_unfold. now apply prefix_run. Qed.

(** After at least one iteration [pred] is bound. *)
Lemma traj_pred_bound (k : nat) :
  exists p, loc_pred (fst (traj (S k))) = Some p.
Proof.
  unfold traj. simpl. destruct (trajectory normal model x0 steps eta w0 k)
    as [st w]. unfold iteration.
  destruct (Z.of_nat k <? steps - 1)%Z; [ destruct (Req_dec_T eta 0) | ].
  - eexists; reflexivity.
  - destruct (frandn_fill _ _ _). eexists; reflexivity.
  - eexists; reflexivity.
Qed.

(** The denoiser invocations of the first [k] iterations: one per
    iteration, each at the warped timestep broadcast over the batch. *)
Lemma traj_calls (k : nat) :
  exists new,
    calls (snd (traj k)) = calls w0 ++ new /\
    map snd new
    = map (fun i => repeat (sched_t steps i) (length x0)) (seq 0 k).
Proof.
  induction k as [| k [new [Hc Hn]]].
  - exists []. simpl. now rewrite app_nil_r.
  - unfold traj in *. simpl trajectory.
    destruct (trajectory normal model x0 steps eta w0 k) as [st w].
    simpl in Hc.
    exists (new ++ [(loc_x st, repeat (sched_t steps k) (length x0))]).
    split.
    + unfold iteration.
      destruct (Z.of_nat k <? steps - 1)%Z; [ destruct (Req_dec_T eta 0) | ];
        try destruct (frandn_fill _ _ _); simpl; rewrite Hc;
        now rewrite app_assoc.
    + rewrite map_app, Hn, seq_S, map_app. reflexivity.
Qed.

(** The whole call: the loop over [range(steps)], then [return pred]. *)
Lemma sample_run :
  exists p,
    loc_pred (fst (traj n)) = Some p /\
    sample normal model x0 steps eta w0 = (Ok p, snd (traj n)).
Proof.
  assert (Hn : exists k, n = S k) by (exists (pred n); unfold n; lia).
  destruct Hn as [k Hk].
  destruct (traj_pred_bound k) as [p Hp]. rewrite <- Hk in Hp.
  exists p. split; [ exact Hp | ].
  unfold sample, bind.
  replace steps with (Z.of_nat n) at 2 by (unfold n; lia).
  rewrite sample_loop_prefix by lia. rewrite Hp. reflexivity.
Qed.

(** With a shape-preserving denoiser the state keeps the shape of the
    initial signal. *)
Lemma traj_shape (k : nat) :
  shape_preserving model -> same_shape (loc_x (fst (traj k))) x0.
Proof.
  intros Hm. induction k as [| k IH].
  - apply same_shape_refl.
  - unfold traj in *. simpl trajectory.
    destruct (trajectory normal model x0 steps eta w0 k) as [st w].
    simpl in IH. unfold iteration.
    set (x := loc_x st) in *.
    set (v := model x (repeat (sched_t steps k) (length x0))).
    assert (Hv : same_shape v x0)
      by (apply same_shape_trans with x; [ apply Hm | exact IH ]).
    set (x' := ftadd (ftscale (ftsub _ _) _) (ftscale (ftadd _ _) _)).
    assert (Hx' : same_shape x' x0).
    { unfold x'. apply tzip_shape_of; apply ftscale_shape_of;
        apply tzip_shape_of; apply ftscale_shape_of; assumption. }
    destruct (Z.of_nat k <? steps - 1)%Z; [ destruct (Req_dec_T eta 0) | ].
    + exact Hx'.
    + pose proof (frandn_fill_shape normal x' (rng_pos w)) as Hs.
      cbn [rng_pos]. destruct (frandn_fill normal x' (rng_pos w)) as [noise pos].
      simpl in *. apply tzip_shape_of; [ exact Hx' | ].
      apply ftscale_shape_of. now apply same_shape_trans with x'.
    + exact IH.
Qed.

End LoopFacts.

(** ** The update's divisions and square roots stay in their domain *)

Section UpdateDomain.

Lemma sched_sigma_sq (steps : Z) (i : nat) :
  sched_sigma steps i = sin (timestep steps i * PI / 2) ^ 2.
Proof. apply (warped_sigma_sq (timestep steps i)). Qed.

Lemma sched_alpha_sq (steps : Z) (i : nat) :
  0 <= sched_alpha steps i /\
  sched_alpha steps i ^ 2 = 1 - sched_sigma steps i ^ 2.
Proof.
  pose proof (sched_unit_circle steps i) as Hc.
  split; [ | lra ].
  unfold sched_alpha, sched_t. simpl. rewrite get_crash_schedule_asin.
  rewrite half_turn_scale.
  pose proof (sin_sq_unit (timestep steps i * PI / 2)) as Hu.
  rewrite cos_asin by lra. apply sqrt_pos.
Qed.

(** Inside the schedule the noise level is positive, and below 1 from the
    second timestep on. *)
Lemma sched_sigma_range (steps : Z) (i : nat) :
  (Z.of_nat i < steps)%Z ->
  0 < sched_sigma steps i <= 1 /\
  ((0 < i)%nat -> sched_sigma steps i < 1).
Proof.
  intros Hi. rewrite sched_sigma_sq.
  pose proof (timestep_range steps i Hi) as [Ht0 Ht1].
  pose proof PI_RGT_0 as Hpi.
  assert (Hs : 0 < sin (timestep steps i * PI / 2)) by (apply sin_gt_0; nra).
  pose proof (SIN_bound (timestep steps i * PI / 2)) as Hb.
  split; [ nra | ].
  intros Hpos.
  assert (Ht : timestep steps i < 1).
  { unfold timestep.
    assert (0 < INR i) by (apply lt_0_INR; exact Hpos).
    assert (0 < IZR steps) by (apply IZR_lt; lia).
    assert (0 < INR i / IZR steps)
      by (apply Rmult_lt_0_compat; [ | apply Rinv_0_lt_compat ]; assumption).
    lra. }
  assert (Hlt : sin (timestep steps i * PI / 2) < sin (PI / 2))
    by (apply sin_increasing_1; nra).
  rewrite sin_PI2 in Hlt. nra.
Qed.

Lemma timestep_decreasing (steps : Z) (i : nat) :
  (1 <= steps)%Z -> timestep steps (S i) < timestep steps i.
Proof.
  intros Hs. unfold timestep. rewrite S_INR.
  assert (0 < IZR steps) by (apply IZR_lt; lia).
  assert (0 < / IZR steps) by now apply Rinv_0_lt_compat.
  unfold Rdiv. nra.
Qed.

Lemma sched_sigma_decreasing (steps : Z) (i : nat) :
  (Z.of_nat i < steps - 1)%Z ->
  sched_sigma steps (S i) <= sched_sigma steps i.
Proof.
  intros Hi. rewrite !sched_sigma_sq.
  pose proof (timestep_range steps i ltac:(lia)) as R0.
  pose proof (timestep_range steps (S i) ltac:(lia)) as R1.
  pose proof (timestep_decreasing steps i ltac:(lia)) as Hd.
  apply sin_sq_monotone; lra.
Qed.

(** For [i < steps - 1]: the two divisors are positive, the two square
    roots of the update are taken of non-negative numbers, the second one
    for [eta] between 0 and 1. *)
Lemma update_in_domain (steps : Z) (eta : R) (i : nat) :
  (Z.of_nat i < steps - 1)%Z ->
  let ddim_sigma :=
    eta * sqrt (sched_sigma steps (S i) ^ 2 / sched_sigma steps i ^ 2)
        * sqrt (1 - sched_alpha steps i ^ 2 / sched_alpha steps (S i) ^ 2) in
  0 < sched_sigma steps i ^ 2 /\
  0 < sched_alpha steps (S i) ^ 2 /\
  0 <= 1 - sched_alpha steps i ^ 2 / sched_alpha steps (S i) ^ 2 /\
  (0 <= eta <= 1 -> 0 <= sched_sigma steps (S i) ^ 2 - ddim_sigma ^ 2).
Proof.
  intros Hi ddim_sigma.
  destruct (sched_sigma_range steps i ltac:(lia)) as [[Hs0 Hs1] _].
  destruct (sched_sigma_range steps (S i) ltac:(lia)) as [[Hn0 _] Hn1].
  specialize (Hn1 ltac:(lia)).
  pose proof (sched_sigma_decreasing steps i Hi) as Hd.
  destruct (sched_alpha_sq steps i) as [_ Ha].
  destruct (sched_alpha_sq steps (S i)) as [_ Hb].
  set (A := sched_alpha steps i ^ 2) in *.
  set (B := sched_alpha steps (S i) ^ 2) in *.
  set (s := sched_sigma steps i) in *.
  set (s' := sched_sigma steps (S i)) in *.
  assert (HB : 0 < B) by nra.
  assert (HA : 0 <= A) by nra.
  assert (HAB : A <= B) by nra.
  assert (Hq : 0 <= A / B <= 1).
  { split.
    - apply Rmult_le_pos; [ exact HA | left; now apply Rinv_0_lt_compat ].
    - apply Rmult_le_reg_r with B; [ exact HB | ].
      unfold Rdiv. rewrite Rmult_assoc, Rinv_l by lra. lra. }
  assert (Hs2 : 0 < s ^ 2) by nra.
  split; [ exact Hs2 | ]. split; [ exact HB | ]. split; [ lra | ].
  intros [He0 He1].
  assert (Hr : 0 <= s' ^ 2 / s ^ 2).
  { apply Rmult_le_pos; [ nra | left; now apply Rinv_0_lt_compat ]. }
  assert (Hsq : ddim_sigma ^ 2
                = eta ^ 2 * (s' ^ 2 / s ^ 2) * (1 - A / B)).
  { unfold ddim_sigma. rewrite !Rpow_mult_distr.
    rewrite !pow2_sqrt by lra. reflexivity. }
  rewrite Hsq.
  (* 1 - A/B <= 1 - A = s^2, since A <= A/B *)
  assert (HqA : A <= A / B).
  { apply Rmult_le_reg_r with B; [ exact HB | ].
    unfold Rdiv. rewrite Rmult_assoc, Rinv_l by lra. nra. }
  assert (Hone : 1 - A / B <= s ^ 2) by lra.
  assert (He2 : 0 <= eta ^ 2 <= 1) by nra.
  assert (Hprod : (s' ^ 2 / s ^ 2) * (1 - A / B) <= s' ^ 2).
  { replace (s' ^ 2) with ((s' ^ 2 / s ^ 2) * s ^ 2) at 2 by (field; lra).
    apply Rmult_le_compat_l; assumption. }
  assert (Hnn : 0 <= (s' ^ 2 / s ^ 2) * (1 - A / B))
    by (apply Rmult_le_pos; lra).
  nra.
Qed.

(** In the schedule the two factors of [ddim_sigma] are in their domain,
    whatever [eta] is: the float the loop computes is the real number
    [ddim_sigma_at]; and [adjusted_sigma] is the float square root of
    the difference. *)
Lemma ddim_sigma_float (steps : Z) (eta : R) (i : nat) :
  (Z.of_nat i < steps - 1)%Z ->
  fmul (fmul (Fin eta)
             (fsqrt (rdiv (sched_sigma steps (S i) ^ 2)
                          (sched_sigma steps i ^ 2))))
       (fsqrt (fsub (Fin 1)
                    (rdiv (sched_alpha steps i ^ 2)
                          (sched_alpha steps (S i) ^ 2))))
  = Fin (ddim_sigma_at steps eta i).
Proof.
  intros Hi.
  destruct (update_in_domain steps eta i Hi) as (Hs & Ha & Hr & _).
  assert (Hq : 0 <= sched_sigma steps (S i) ^ 2 / sched_sigma steps i ^ 2).
  { apply Rmult_le_pos; [ apply pow2_ge_0 | ].
    left. now apply Rinv_0_lt_compat. }
  unfold rdiv, ddim_sigma_at.
  destruct (Req_dec_T (sched_sigma steps i ^ 2) 0) as [E | _]; [ lra | ].
  destruct (Req_dec_T (sched_alpha steps (S i) ^ 2) 0) as [E | _]; [ lra | ].
  unfold fsub, fsqrt.
  destruct (Rlt_dec (sched_sigma steps (S i) ^ 2 / sched_sigma steps i ^ 2) 0)
    as [E | _]; [ lra | ].
  destruct (Rlt_dec (1 - sched_alpha steps i ^ 2
                         / sched_alpha steps (S i) ^ 2) 0) as [E | _];
    [ lra | ].
  reflexivity.
Qed.

Lemma adjusted_sigma_float (steps : Z) (eta : R) (i : nat) :
  fsqrt (fsub (Fin (sched_sigma steps (S i) ^ 2))
              (fmul (Fin (ddim_sigma_at steps eta i))
                    (Fin (ddim_sigma_at steps eta i))))
  = adjusted_sigma_at steps eta i.
Proof.
  unfold adjusted_sigma_at, fsub, fmul.
  replace (ddim_sigma_at steps eta i * ddim_sigma_at steps eta i)
    with (ddim_sigma_at steps eta i ^ 2) by ring.
  reflexivity.
Qed.

(** Inside the domain [adjusted_sigma] is a real number ... *)
Lemma adjusted_sigma_finite (steps : Z) (eta : R) (i : nat) :
  0 <= sched_sigma steps (S i) ^ 2 - ddim_sigma_at steps eta i ^ 2 ->
  adjusted_sigma_at steps eta i
  = Fin (sqrt (sched_sigma steps (S i) ^ 2 - ddim_sigma_at steps eta i ^ 2)).
Proof.
  intros H. unfold adjusted_sigma_at, fsqrt.
  destruct (Rlt_dec _ 0) as [E | _]; [ lra | reflexivity ].
Qed.

(** ... and outside it is not. *)
Lemma adjusted_sigma_nonfinite (steps : Z) (eta : R) (i : nat) :
  sched_sigma steps (S i) ^ 2 - ddim_sigma_at steps eta i ^ 2 < 0 ->
  adjusted_sigma_at steps eta i = NonFinite.
Proof.
  intros H. unfold adjusted_sigma_at, fsqrt.
  destruct (Rlt_dec _ 0) as [_ | E]; [ reflexivity | lra ].
Qed.

End UpdateDomain.

(** ** The state holds real numbers only, or none at all *)

Lemma draw_list_Forall {A B : Type} (draw : A -> nat -> B * nat)
  (Q : B -> Prop) (l : list A) (pos : nat) :
  (forall a p, Q (fst (draw a p))) ->
  Forall Q (fst (draw_list draw l pos)).
Proof.
  intros Hd. revert pos. induction l as [| a l IH]; intros pos; simpl.
  - constructor.
  - pose proof (Hd a pos) as Ha. destruct (draw a pos) as [b pos1].
    pose proof (IH pos1) as Hl. destruct (draw_list draw l pos1) as [r pos2].
    simpl in *. now constructor.
Qed.

Lemma frandn_fill_finite (normal : nat -> R) (x : FTensor) (pos : nat) :
  tfinite (fst (frandn_fill normal x pos)).
Proof.
  unfold frandn_fill, tfinite. apply draw_list_Forall. intros m p.
  apply draw_list_Forall. intros r q. apply draw_list_Forall.
  intros e k. simpl. discriminate.
Qed.

(** One iteration keeps the alternative: from real numbers it reaches
    real numbers, unless [adjusted_sigma] is not finite, and then no
    element of the state is; from there on none ever is. *)
Lemma iteration_finite_or_not (normal : nat -> R)
  (model : FTensor -> list R -> FTensor) (batch : nat) (steps : Z) (eta : R)
  (i : nat) (st : Locals) (w : FWorld) :
  finite_preserving model ->
  tfinite (loc_x st) \/ tnonfinite (loc_x st) ->
  tfinite (loc_x (fst (iteration normal model batch steps eta i (st, w)))) \/
  tnonfinite (loc_x (fst (iteration normal model batch steps eta i (st, w)))).
Proof.
  intros Hm Hx. unfold iteration.
  destruct (Z.of_nat i <? steps - 1)%Z eqn:Hlt; [ | exact Hx ].
  apply Z.ltb_lt in Hlt.
  rewrite (ddim_sigma_float steps eta i Hlt), adjusted_sigma_float.
  set (v := model (loc_x st) (repeat (sched_t steps i) batch)).
  set (pred := ftsub (ftscale (loc_x st) _) _).
  set (eps := ftadd (ftscale (loc_x st) _) _).
  set (x' := ftadd (ftscale pred _) _).
  assert (Hx' : tfinite x' \/ tnonfinite x').
  { unfold x'. destruct Hx as [Hx | Hx].
    - destruct (adjusted_sigma_at steps eta i) as [a |].
      + left. apply tfinite_add; apply tfinite_scale.
        * apply tfinite_sub; apply tfinite_scale; [ exact Hx | now apply Hm ].
        * apply tfinite_add; apply tfinite_scale; [ exact Hx | now apply Hm ].
      + right. apply tnonfinite_add. right. apply tnonfinite_scale.
    - right. apply tnonfinite_add. left. apply tnonfinite_scale_of.
      apply tnonfinite_sub. left. now apply tnonfinite_scale_of. }
  destruct (Req_dec_T eta 0) as [_ | _]; [ exact Hx' | ].
  pose proof (frandn_fill_finite normal x'
                (rng_pos (mkWorld (rng_pos w)
                            (calls w ++ [(loc_x st,
                                          repeat (sched_t steps i) batch)]))))
    as Hn.
  destruct (frandn_fill normal x' _) as [noise pos]. simpl in Hn. simpl.
  destruct Hx' as [Hx' | Hx'].
  - left. apply tfinite_add; [ exact Hx' | now apply tfinite_scale ].
  - right. apply tnonfinite_add. now left.
Qed.

Lemma trajectory_finite_or_not (normal : nat -> R)
  (model : FTensor -> list R -> FTensor) (x0 : FTensor) (steps : Z) (eta : R)
  (w0 : FWorld) (k : nat) :
  finite_preserving model -> tfinite x0 ->
  tfinite (loc_x (fst (trajectory normal model x0 steps eta w0 k))) \/
  tnonfinite (loc_x (fst (trajectory normal model x0 steps eta w0 k))).
Proof.
  intros Hm H0. induction k as [| k IH]; [ now left | ].
  simpl trajectory.
  destruct (trajectory normal model x0 steps eta w0 k) as [st w].
  now apply iteration_finite_or_not.
Qed.

(** ** The deterministic case *)

(** With [eta = 0] the locals after [k] iterations and the invocations made
    depend neither on the generator's stream nor on the world the call
    starts from, and the generator stays where it was. *)
Lemma trajectory_eta0 (model : FTensor -> list R -> FTensor) (x0 : FTensor)
  (steps : Z) (k : nat) :
  exists st new,
    forall (normal : nat -> R) (w0 : FWorld),
      trajectory normal model x0 steps 0 w0 k
      = (st, mkWorld (rng_pos w0) (calls w0 ++ new)).
Proof.
  induction k as [| k [st [new IH]]].
  - exists (mkLocals x0 None), []. intros normal [pos cs]. simpl.
    now rewrite app_nil_r.
  - destruct (Z.ltb_spec (Z.of_nat k) (steps - 1)) as [Hlt | Hge].
    + eexists. eexists. intros normal w0. simpl. rewrite IH.
      unfold iteration. cbn [rng_pos calls].
      destruct (Z.ltb_spec (Z.of_nat k) (steps - 1)) as [_ | Hn]; [ | lia ].
      destruct (Req_dec_T 0 0) as [_ | Hn]; [ | now contradiction Hn ].
      rewrite <- app_assoc. reflexivity.
    + eexists. eexists. intros normal w0. simpl. rewrite IH.
      unfold iteration. cbn [rng_pos calls].
      destruct (Z.ltb_spec (Z.of_nat k) (steps - 1)) as [Hn | _]; [ lia | ].
      rewrite <- app_assoc. reflexivity.
Qed.

(** ** The sampler *)

(** A single step with [eta = 0]: one invocation, at the warp of 1, and
    the result is its [pred]. *)
Lemma sample_one_step (normal : nat -> R)
  (model : FTensor -> list R -> FTensor) (x0 : FTensor) (w0 : FWorld) :
  let tv := repeat (get_crash_schedule 1) (length x0) in
  let v := model x0 tv in
  let alpha_0 := fst (get_alphas_sigmas (get_crash_schedule 1)) in
  let sigma_0 := snd (get_alphas_sigmas (get_crash_schedule 1)) in
  sample normal model x0 1 0 w0
  = (Ok (ftsub (ftscale x0 alpha_0) (ftscale v sigma_0)),
     mkWorld (rng_pos w0) (calls w0 ++ [(x0, tv)])).
Proof.
  cbn zeta.
  destruct (sample_run normal model x0 1 0 w0 ltac:(lia)) as [p [Hp E]].
  rewrite E. change (Z.to_nat 1) with 1%nat in *.
  simpl trajectory in *. unfold iteration in *.
  change (Z.of_nat 0 <? 1 - 1)%Z with false in *.
  cbn [fst snd loc_x loc_pred] in *.
  unfold sched_alpha, sched_sigma in Hp. rewrite !sched_t_first in Hp.
  rewrite sched_t_first. injection Hp as <-. reflexivity.
Qed.

(** The first schedule point is pure noise: the warp of 1 is 1, where
    alpha is 0 and sigma is 1. *)
Lemma first_coefficients :
  get_alphas_sigmas (get_crash_schedule 1) = (0, 1).
Proof.
  rewrite get_crash_schedule_asin.
  replace (1 * PI / 2) with (PI / 2) by field.
  rewrite sin_PI2. replace (1 ^ 2) with 1 by ring. rewrite asin_1.
  unfold get_alphas_sigmas. rewrite half_turn_scale.
  now rewrite cos_PI2, sin_PI2.
Qed.

(** With the identity as denoiser one step turns the signal [1] into
    [-1]: what comes back is [pred], while [x] is still [1]. *)
Example sample_one_step_identity :
  fst (sample (fun _ => 0) (fun x _ => x) [[[Fin 1]]] 1 0 (mkWorld 0 []))
  = Ok [[[Fin (-1)]]].
Proof.
  rewrite sample_one_step. rewrite first_coefficients. simpl.
  unfold ftsub, ftscale, tzip, tmap. simpl.
  do 5 f_equal. ring.
Qed.

(** In the first iteration the schedule is at pure noise and
    [ddim_sigma] is [eta] times the next noise level. *)
Lemma ddim_sigma_first (steps : Z) (eta : R) :
  (2 <= steps)%Z ->
  ddim_sigma_at steps eta 0 = eta * sched_sigma steps 1 /\
  0 < sched_sigma steps 1.
Proof.
  intros Hs.
  assert (Ht : sched_t steps 0 = get_crash_schedule 1).
  { unfold sched_t, timestep. f_equal. simpl. unfold Rdiv.
    rewrite Rmult_0_l. apply Rminus_0_r. }
  assert (Ha : sched_alpha steps 0 = 0)
    by (unfold sched_alpha; now rewrite Ht, first_coefficients).
  assert (Hg : sched_sigma steps 0 = 1)
    by (unfold sched_sigma; now rewrite Ht, first_coefficients).
  destruct (sched_sigma_range steps 1 ltac:(simpl; lia)) as [[Hp _] _].
  split; [ | exact Hp ].
  unfold ddim_sigma_at. rewrite Ha, Hg.
  replace (sched_sigma steps 1 ^ 2 / 1 ^ 2) with (sched_sigma steps 1 ^ 2)
    by field.
  replace (1 - 0 ^ 2 / sched_alpha steps 1 ^ 2) with 1
    by (unfold Rdiv; ring).
  rewrite sqrt_pow2 by lra. rewrite sqrt_1. ring.
Qed.

(** C1: in iteration i the locals x, v give pred and eps; when
    i < steps-1 the next state is pred*alphas[i+1] + eps*adjusted_sigma,
    to which ddim_sigma times a fresh tensor of standard-normal draws of
    the shape of x is added exactly when eta is not 0; in the last
    iteration x is left as it is and nothing is drawn.  This holds for
    every eta, with torch's square root: the divisors sigmas[i]^2 and
    alphas[i+1]^2 are positive and ddim_sigma is a real number, while
    adjusted_sigma is a real number when
    ddim_sigma^2 <= sigmas[i+1]^2, as for eta in [0,1], and is
    non-finite otherwise, as in the first iteration for |eta| > 1, and
    then so is every value of the next state.  The denoiser is taken to
    keep the shape of its input. *)
Theorem sample_iteration_update
  (normal : nat -> R) (model : FTensor -> list R -> FTensor) (x0 : FTensor)
  (steps : Z) (eta : R) (w0 : FWorld) (i : nat) :
  shape_preserving model ->
  (Z.of_nat i < steps)%Z ->
  exists st w st' w',
    sample_loop normal model x0 steps eta (range (Z.of_nat i)) w0
    = (Ok st, w) /\
    sample_loop normal model x0 steps eta (range (Z.of_nat i + 1)) w0
    = (Ok st', w') /\
    let x := loc_x st in
    let v := model x (repeat (sched_t steps i) (length x0)) in
    let pred :=
      ftsub (ftscale x (sched_alpha steps i)) (ftscale v (sched_sigma steps i)) in
    let eps :=
      ftadd (ftscale x (sched_sigma steps i)) (ftscale v (sched_alpha steps i)) in
    let ddim_sigma :=
      fmul (fmul eta
                 (fsqrt (rdiv (sched_sigma steps (S i) ^ 2)
                              (sched_sigma steps i ^ 2))))
           (fsqrt (fsub 1
                        (rdiv (sched_alpha steps i ^ 2)
                              (sched_alpha steps (S i) ^ 2)))) in
    let adjusted_sigma :=
      fsqrt (fsub (sched_sigma steps (S i) ^ 2)
                  (fmul ddim_sigma ddim_sigma)) in
    let x' :=
      ftadd (ftscale pred (sched_alpha steps (S i))) (ftscale eps adjusted_sigma) in
    loc_pred st' = Some pred /\
    ((Z.of_nat i < steps - 1)%Z ->
       same_shape x' x /\
       (0 < sched_sigma steps i ^ 2 /\
        0 < sched_alpha steps (S i) ^ 2 /\
        0 <= 1 - sched_alpha steps i ^ 2 / sched_alpha steps (S i) ^ 2 /\
        ddim_sigma
        = Fin (eta * sqrt (sched_sigma steps (S i) ^ 2
                           / sched_sigma steps i ^ 2)
                   * sqrt (1 - sched_alpha steps i ^ 2
                               / sched_alpha steps (S i) ^ 2))) /\
       (forall d, ddim_sigma = Fin d ->
          (d ^ 2 <= sched_sigma steps (S i) ^ 2 ->
             adjusted_sigma = Fin (sqrt (sched_sigma steps (S i) ^ 2 - d ^ 2))) /\
          (0 <= eta <= 1 -> d ^ 2 <= sched_sigma steps (S i) ^ 2) /\
          (sched_sigma steps (S i) ^ 2 < d ^ 2 ->
             adjusted_sigma = NonFinite /\ tnonfinite (loc_x st')) /\
          (i = 0%nat -> 1 < eta ^ 2 -> sched_sigma steps (S i) ^ 2 < d ^ 2)) /\
       (eta = 0 -> loc_x st' = x' /\ rng_pos w' = rng_pos w) /\
       (eta <> 0 ->
          exists noise,
            frandn_fill normal x' (rng_pos w) = (noise, rng_pos w') /\
            same_shape noise x /\
            rng_pos w' = (rng_pos w + numel x')%nat /\
            loc_x st' = ftadd x' (ftscale noise ddim_sigma))) /\
    (Z.of_nat i = (steps - 1)%Z -> loc_x st' = x /\ rng_pos w' = rng_pos w).
Proof.
  intros Hm Hi.
  assert (Hs : (1 <= steps)%Z) by lia.
  pose proof (sample_loop_prefix normal model x0 steps eta w0 Hs i ltac:(lia))
    as E1.
  pose proof (sample_loop_prefix normal model x0 steps eta w0 Hs (S i)
                ltac:(lia)) as E2.
  replace (Z.of_nat (S i)) with (Z.of_nat i + 1)%Z in E2 by lia.
  pose proof (traj_shape normal model x0 steps eta w0 i Hm) as Hx.
  simpl trajectory in E2.
  destruct (trajectory normal model x0 steps eta w0 i) as [st w].
  simpl in E1, Hx.
  eexists st, w, _, _. split; [ exact E1 | ]. split; [ exact E2 | ].
  unfold iteration. cbn zeta.
  set (x := loc_x st) in *.
  set (v := model x (repeat (sched_t steps i) (length x0))).
  set (pred := ftsub (ftscale x _) (ftscale v _)).
  set (eps := ftadd (ftscale x _) (ftscale v _)).
  assert (Hv : same_shape v x) by apply Hm.
  destruct (Z.ltb_spec (Z.of_nat i) (steps - 1)) as [Hlt | Hge].
  - (* the coefficients *)
    rewrite (ddim_sigma_float steps eta i Hlt).
    rewrite (adjusted_sigma_float steps eta i).
    set (x' := ftadd (ftscale pred _) (ftscale eps _)).
    assert (Hx' : same_shape x' x).
    { unfold x', pred, eps. apply tzip_shape_of; apply ftscale_shape_of;
        apply tzip_shape_of; apply ftscale_shape_of;
        first [ apply same_shape_refl | exact Hv ]. }
    destruct (update_in_domain steps eta i Hlt) as (D1 & D2 & D3 & D4).
    cbn zeta in D4. fold (ddim_sigma_at steps eta i) in D4.
    assert (Hcoef :
      forall nx : FTensor,
        (tnonfinite x' -> tnonfinite nx) ->
        forall d : R, Fin (ddim_sigma_at steps eta i) = Fin d ->
          (d ^ 2 <= sched_sigma steps (S i) ^ 2 ->
             adjusted_sigma_at steps eta i
             = Fin (sqrt (sched_sigma steps (S i) ^ 2 - d ^ 2))) /\
          (0 <= eta <= 1 -> d ^ 2 <= sched_sigma steps (S i) ^ 2) /\
          (sched_sigma steps (S i) ^ 2 < d ^ 2 ->
             adjusted_sigma_at steps eta i = NonFinite /\ tnonfinite nx) /\
          (i = 0%nat -> 1 < eta ^ 2 -> sched_sigma steps (S i) ^ 2 < d ^ 2)).
    { intros nx Hnx d Hd. injection Hd as <-.
      split; [ | split; [ | split ] ].
      - intros Hle. apply adjusted_sigma_finite. lra.
      - intros He. specialize (D4 He). lra.
      - intros Hgt.
        assert (Hn : adjusted_sigma_at steps eta i = NonFinite)
          by (apply adjusted_sigma_nonfinite; lra).
        split; [ exact Hn | ]. apply Hnx. unfold x'. rewrite Hn.
        apply tnonfinite_add. right. apply tnonfinite_scale.
      - intros -> He.
        destruct (ddim_sigma_first steps eta ltac:(lia)) as [-> Hp].
        replace ((eta * sched_sigma steps 1) ^ 2)
          with (eta ^ 2 * sched_sigma steps 1 ^ 2) by ring.
        assert (H2 : 0 < sched_sigma steps 1 ^ 2) by (apply pow_lt; exact Hp).
        pose proof (Rmult_lt_compat_r _ _ _ H2 He). lra. }
    destruct (Req_dec_T eta 0) as [He | He];
      cbn [fst snd loc_x loc_pred rng_pos].
    + split; [ reflexivity | ]. split; [ | intros; lia ].
      intros _. split; [ exact Hx' | ].
      split; [ repeat split; assumption | ].
      split; [ apply Hcoef; auto | ].
      split; [ | contradiction ].
      intros _. split; reflexivity.
    + pose proof (frandn_fill_shape normal x' (rng_pos w)) as Hsh.
      pose proof (frandn_fill_pos normal x' (rng_pos w)) as Hpos.
      destruct (frandn_fill normal x' (rng_pos w)) as [noise pos].
      cbn [fst snd loc_x loc_pred rng_pos] in *.
      split; [ reflexivity | ]. split; [ | intros; lia ].
      intros _. split; [ exact Hx' | ].
      split; [ repeat split; assumption | ].
      split; [ apply Hcoef; intros Hn; apply tnonfinite_add; now left | ].
      split; [ intros; contradiction | ].
      intros _. exists noise. repeat split.
      * now apply same_shape_trans with x'.
      * exact Hpos.
  - cbn [fst snd loc_x loc_pred rng_pos].
    split; [ reflexivity | ]. split; [ intros; lia | ].
    intros _. split; reflexivity.
Qed.

Lemma sample_iteration_update_witness :
  shape_preserving (fun (x : FTensor) (_ : list R) => x) /\
  (Z.of_nat 0 < 2)%Z /\
  exists st' w',
    sample_loop (fun _ => 0) (fun x _ => x) [[[Fin 1]]] 2 2 (range 1)
                (mkWorld 0 []) = (Ok st', w') /\
    tnonfinite (loc_x st').
Proof.
  assert (Hm : shape_preserving (fun (x : FTensor) (_ : list R) => x))
    by (intros x tv; apply same_shape_refl).
  assert (Hi : (Z.of_nat 0 < 2)%Z) by (simpl; lia).
  split; [ exact Hm | ]. split; [ exact Hi | ].
  destruct (sample_iteration_update (fun _ => 0) (fun x _ => x) [[[Fin 1]]] 2 2
              (mkWorld 0 []) 0 Hm Hi)
    as (st & w & st' & w' & E1 & E2 & _ & Hnext & _).
  exists st', w'. split; [ exact E2 | ].
  destruct (Hnext ltac:(simpl; lia)) as (_ & (_ & _ & _ & Hd) & Hc & _).
  destruct (Hc _ Hd) as (_ & _ & Hnf & Hfirst).
  apply Hnf. apply Hfirst; [ reflexivity | lra ].
Defined.

(** C2: for steps >= 1 the schedule has exactly steps entries: the linear
    timesteps t_i = 1 - i/steps, i = 0..steps-1, which start at 1 and stay
    above 0, each warped by get_crash_schedule, and the coefficients
    get_alphas_sigmas gives at the warped values; the i-th denoiser
    invocation receives the warped t_i once per example of the batch.  The
    denoiser is taken to keep the shape of its input. *)
Theorem sample_timesteps_schedule
  (normal : nat -> R) (model : FTensor -> list R -> FTensor) (x0 : FTensor)
  (steps : Z) (eta : R) (w0 : FWorld) :
  shape_preserving model ->
  (1 <= steps)%Z ->
  let n := Z.to_nat steps in
  (exists t0,
     linspace 1 0 (steps + 1) = Ok t0 /\
     removelast t0 = map (fun i => 1 - INR i / IZR steps) (seq 0 n)) /\
  (forall i, (i < n)%nat -> 0 < 1 - INR i / IZR steps <= 1) /\
  1 - INR 0 / IZR steps = 1 /\
  noise_schedule steps =
    Ok (map (fun i => get_crash_schedule (1 - INR i / IZR steps)) (seq 0 n),
        map (fun i => fst (get_alphas_sigmas
                             (get_crash_schedule (1 - INR i / IZR steps))))
            (seq 0 n),
        map (fun i => snd (get_alphas_sigmas
                             (get_crash_schedule (1 - INR i / IZR steps))))
            (seq 0 n)) /\
  exists out w new,
    sample normal model x0 steps eta w0 = (Ok out, w) /\
    calls w = calls w0 ++ new /\
    map snd new
    = map (fun i => repeat (get_crash_schedule (1 - INR i / IZR steps))
                           (length x0))
          (seq 0 n).
Proof.
  intros _ Hs n. split; [ | split; [ | split; [ | split ] ] ].
  - eexists. split; [ apply (linspace_run steps Hs) | ].
    apply removelast_last.
  - intros i Hi. apply (timestep_range steps i). unfold n in Hi. lia.
  - simpl. unfold Rdiv. rewrite Rmult_0_l. apply Rminus_0_r.
  - apply (noise_schedule_run steps Hs).
  - destruct (sample_run normal model x0 steps eta w0 Hs) as [p [_ E]].
    destruct (traj_calls normal model x0 steps eta w0 (Z.to_nat steps))
      as [new [Hc Hn]].
    exists p, (snd (trajectory normal model x0 steps eta w0 (Z.to_nat steps))),
      new.
    split; [ exact E | ]. split; [ exact Hc | exact Hn ].
Qed.

Lemma sample_timesteps_schedule_witness :
  shape_preserving (fun (x : FTensor) (_ : list R) => x) /\
  (1 <= 2)%Z /\
  noise_schedule 2 =
    Ok (map (fun i => get_crash_schedule (1 - INR i / 2)) [0; 1]%nat,
        map (fun i => fst (get_alphas_sigmas
                             (get_crash_schedule (1 - INR i / 2)))) [0; 1]%nat,
        map (fun i => snd (get_alphas_sigmas
                             (get_crash_schedule (1 - INR i / 2)))) [0; 1]%nat).
Proof.
  assert (Hm : shape_preserving (fun (x : FTensor) (_ : list R) => x))
    by (intros x tv; apply same_shape_refl).
  assert (Hs : (1 <= 2)%Z) by lia.
  split; [ exact Hm | ]. split; [ exact Hs | ].
  exact (proj1 (proj2 (proj2 (proj2
           (sample_timesteps_schedule (fun _ => 0) (fun x _ => x) [[[Fin 1]]] 2 0
              (mkWorld 0 []) Hm Hs))))).
Defined.

(** C3: for steps >= 1 and any eta, sample invokes the denoiser exactly
    steps times and returns the pred of the last iteration, computed from
    the state x that enters it; with steps = 1 and eta = 0 there is one
    invocation and the result is x*alpha_0 - v*sigma_0 for
    (alpha_0, sigma_0) = get_alphas_sigmas (get_crash_schedule 1).  The
    denoiser is taken to keep the shape of its input; the result then has
    the shape of the initial signal. *)
Theorem sample_invocations_and_result
  (normal : nat -> R) (model : FTensor -> list R -> FTensor) (x0 : FTensor)
  (steps : Z) (eta : R) (w0 : FWorld) :
  shape_preserving model ->
  (1 <= steps)%Z ->
  (exists st w w' new,
     sample_loop normal model x0 steps eta (range (steps - 1)) w0
     = (Ok st, w) /\
     let x := loc_x st in
     let i := Z.to_nat (steps - 1) in
     let v := model x (repeat (sched_t steps i) (length x0)) in
     let pred :=
       ftsub (ftscale x (sched_alpha steps i)) (ftscale v (sched_sigma steps i)) in
     sample normal model x0 steps eta w0 = (Ok pred, w') /\
     same_shape pred x0 /\
     calls w' = calls w0 ++ new /\
     length new = Z.to_nat steps) /\
  (let tv := repeat (get_crash_schedule 1) (length x0) in
   let v := model x0 tv in
   let alpha_0 := fst (get_alphas_sigmas (get_crash_schedule 1)) in
   let sigma_0 := snd (get_alphas_sigmas (get_crash_schedule 1)) in
   sample normal model x0 1 0 w0
   = (Ok (ftsub (ftscale x0 alpha_0) (ftscale v sigma_0)),
      mkWorld (rng_pos w0) (calls w0 ++ [(x0, tv)]))).
Proof.
  intros Hm Hs. split.
  - destruct (sample_run normal model x0 steps eta w0 Hs) as [p [Hp E]].
    destruct (traj_calls normal model x0 steps eta w0 (Z.to_nat steps))
      as [new [Hc Hn]].
    set (k := Z.to_nat (steps - 1)).
    assert (Hk : Z.to_nat steps = S k) by (unfold k; lia).
    pose proof (sample_loop_prefix normal model x0 steps eta w0 Hs k
                  ltac:(lia)) as E1.
    replace (Z.of_nat k) with (steps - 1)%Z in E1 by (unfold k; lia).
    pose proof (traj_shape normal model x0 steps eta w0 k Hm) as Hx.
    rewrite Hk in Hp, E, Hc. simpl trajectory in Hp, E, Hc.
    destruct (trajectory normal model x0 steps eta w0 k) as [st w].
    simpl in E1, Hx.
    eexists st, w, _, new. split; [ exact E1 | ]. cbn zeta.
    assert (Hpred : p = ftsub (ftscale (loc_x st) (sched_alpha steps k))
                          (ftscale (model (loc_x st)
                                     (repeat (sched_t steps k) (length x0)))
                                  (sched_sigma steps k))).
    { unfold iteration in Hp.
      destruct (Z.of_nat k <? steps - 1)%Z; [ destruct (Req_dec_T eta 0) | ];
        try destruct (frandn_fill _ _ _); simpl in Hp; congruence. }
    rewrite <- Hpred. split; [ exact E | ]. split; [ | split ].
    + rewrite Hpred. apply tzip_shape_of; apply ftscale_shape_of;
        [ exact Hx | ].
      apply same_shape_trans with (loc_x st); [ apply Hm | exact Hx ].
    + exact Hc.
    + rewrite <- (length_map snd), Hn, length_map, length_seq. reflexivity.
  - apply sample_one_step.
Qed.

Lemma sample_invocations_and_result_witness :
  shape_preserving (fun (x : FTensor) (_ : list R) => x) /\
  (1 <= 1)%Z /\
  exists out,
    sample (fun _ => 0) (fun x _ => x) [[[Fin 1]]] 1 0 (mkWorld 0 [])
    = (Ok out,
       mkWorld 0 [([[[Fin 1]]], repeat (get_crash_schedule 1) 1)]).
Proof.
  assert (Hm : shape_preserving (fun (x : FTensor) (_ : list R) => x))
    by (intros x tv; apply same_shape_refl).
  assert (Hs : (1 <= 1)%Z) by lia.
  split; [ exact Hm | ]. split; [ exact Hs | ].
  eexists.
  exact (proj2 (sample_invocations_and_result (fun _ => 0) (fun x _ => x)
                  [[[Fin 1]]] 1 0 (mkWorld 0 []) Hm Hs)).
Defined.

(** C8: with eta = 0 and steps >= 1, two calls on the same denoiser and
    initial signal return the same tensor and make the same invocations,
    whatever the generator would yield and wherever it stands, and each
    call leaves the generator's position as it found it: nothing is
    drawn.  The denoiser is taken to keep the shape of its input. *)
Theorem sample_eta0_deterministic
  (normal1 normal2 : nat -> R) (model : FTensor -> list R -> FTensor)
  (x0 : FTensor) (steps : Z) (w1 w2 : FWorld) :
  shape_preserving model ->
  (1 <= steps)%Z ->
  exists out new,
    sample normal1 model x0 steps 0 w1
    = (Ok out, mkWorld (rng_pos w1) (calls w1 ++ new)) /\
    sample normal2 model x0 steps 0 w2
    = (Ok out, mkWorld (rng_pos w2) (calls w2 ++ new)).
Proof.
  intros _ Hs.
  destruct (trajectory_eta0 model x0 steps (Z.to_nat steps)) as [st [new Ht]].
  destruct (sample_run normal1 model x0 steps 0 w1 Hs) as [p1 [Hp1 E1]].
  destruct (sample_run normal2 model x0 steps 0 w2 Hs) as [p2 [Hp2 E2]].
  rewrite Ht in Hp1, E1, Hp2, E2. simpl in Hp1, E1, Hp2, E2.
  exists p1, new. split; [ exact E1 | ].
  replace p1 with p2 by congruence. exact E2.
Qed.

Lemma sample_eta0_deterministic_witness :
  shape_preserving (fun (x : FTensor) (_ : list R) => x) /\
  (1 <= 3)%Z /\
  fst (sample (fun _ => 0) (fun x _ => x) [[[Fin 1; Fin 2]]] 3 0 (mkWorld 0 []))
  = fst (sample (fun p => INR p) (fun x _ => x) [[[Fin 1; Fin 2]]] 3 0
           (mkWorld 7 [])) /\
  rng_pos (snd (sample (fun p => INR p) (fun x _ => x) [[[Fin 1; Fin 2]]] 3 0
                  (mkWorld 7 []))) = 7%nat.
Proof.
  assert (Hm : shape_preserving (fun (x : FTensor) (_ : list R) => x))
    by (intros x tv; apply same_shape_refl).
  assert (Hs : (1 <= 3)%Z) by lia.
  split; [ exact Hm | ]. split; [ exact Hs | ].
  destruct (sample_eta0_deterministic (fun _ => 0) (fun p => INR p)
              (fun x _ => x) [[[Fin 1; Fin 2]]] 3 (mkWorld 0 []) (mkWorld 7 []) Hm Hs)
    as (out & new & E1 & E2).
  rewrite E1, E2. split; reflexivity.
Defined.

(** C9: the state x that enters iteration i satisfies
    x = pred*alphas[i] + eps*sigmas[i], with pred = x*alphas[i] - v*sigmas[i]
    and eps = x*sigmas[i] + v*alphas[i], for the velocity the denoiser
    returns and for every tensor v of the shape of x.  The denoiser is
    taken to keep the shape of its input.  Values are floats, and
    non-finite values are not told apart.  Started on real numbers with a
    denoiser that returns real numbers on real numbers, the identity
    holds at every iteration and for every eta, also once an eta beyond 1
    has left no finite value in x: then both sides have none.  For an
    arbitrary v it holds when v is made of real numbers or x has no
    finite value; a non-finite v with a finite x is the one case left
    out, and there the recombination is not finite. *)
Theorem sample_state_on_interpolation_line
  (normal : nat -> R) (model : FTensor -> list R -> FTensor) (x0 : FTensor)
  (steps : Z) (eta : R) (w0 : FWorld) (i : nat) :
  shape_preserving model ->
  (Z.of_nat i < steps)%Z ->
  exists st w,
    sample_loop normal model x0 steps eta (range (Z.of_nat i)) w0
    = (Ok st, w) /\
    let x := loc_x st in
    let alpha := sched_alpha steps i in
    let sigma := sched_sigma steps i in
    let recombined (v : FTensor) :=
      let pred := ftsub (ftscale x alpha) (ftscale v sigma) in
      let eps := ftadd (ftscale x sigma) (ftscale v alpha) in
      ftadd (ftscale pred alpha) (ftscale eps sigma) in
    (tfinite x0 -> finite_preserving model ->
       recombined (model x (repeat (sched_t steps i) (length x0))) = x) /\
    (forall v, same_shape v x -> tfinite v \/ tnonfinite x ->
       recombined v = x).
Proof.
  intros Hm Hi.
  pose proof (sample_loop_prefix normal model x0 steps eta w0 ltac:(lia) i
                ltac:(lia)) as E.
  pose proof (fun Hf H0 =>
                trajectory_finite_or_not normal model x0 steps eta w0 i Hf H0)
    as Hinv.
  destruct (trajectory normal model x0 steps eta w0 i) as [st w].
  simpl in Hinv.
  exists st, w. split; [ exact E | ]. cbn zeta.
  assert (Hall : forall v, same_shape v (loc_x st) ->
            tfinite v \/ tnonfinite (loc_x st) ->
            ftadd (ftscale (ftsub (ftscale (loc_x st) (sched_alpha steps i))
                               (ftscale v (sched_sigma steps i)))
                         (sched_alpha steps i))
                 (ftscale (ftadd (ftscale (loc_x st) (sched_sigma steps i))
                               (ftscale v (sched_alpha steps i)))
                         (sched_sigma steps i))
            = loc_x st).
  { intros v Hv [Hfin | Hnon].
    - apply recombine_tensor;
        [ apply sched_unit_circle | exact Hv | exact Hfin ].
    - now apply recombine_nonfinite. }
  split; [ | exact Hall ].
  intros H0 Hf. apply Hall; [ apply Hm | ].
  destruct (Hinv Hf H0) as [Hx | Hx]; [ left; now apply Hf | now right ].
Qed.

Lemma sample_state_on_interpolation_line_witness :
  shape_preserving (fun (x : FTensor) (_ : list R) => x) /\
  (Z.of_nat 1 < 2)%Z /\
  exists st w,
    sample_loop (fun _ => 0) (fun x _ => x) [[[Fin 1]]] 2 (1 / 2)
                (range (Z.of_nat 1)) (mkWorld 0 []) = (Ok st, w).
Proof.
  assert (Hm : shape_preserving (fun (x : FTensor) (_ : list R) => x))
    by (intros x tv; apply same_shape_refl).
  assert (Hi : (Z.of_nat 1 < 2)%Z) by (simpl; lia).
  split; [ exact Hm | ]. split; [ exact Hi | ].
  destruct (sample_state_on_interpolation_line (fun _ => 0) (fun x _ => x)
              [[[Fin 1]]] 2 (1 / 2) (mkWorld 0 []) 1 Hm Hi)
    as (st & w & E & _).
  exists st, w. exact E.
Defined.

(** The call with steps = 0 is not rejected as an invalid argument: it
    ends in UnboundLocalError at [return pred]. *)
Lemma sample_zero_steps_not_invalid_argument :
  ~ rejected_as_invalid_argument
      (sample (fun _ => 0) (fun x _ => x) [[[Fin 1]]] 0 0) (mkWorld 0 []).
Proof.
  intros [e [He [Hinv _]]].
  rewrite sample_below_one in He by lia. simpl in He.
  injection He as <-. discriminate Hinv.
Qed.

(** C10, amended: for every steps < 1 the call ends in an exception
    without any denoiser invocation or draw, the world being left as it
    was: for steps = 0 and steps = -1 the UnboundLocalError of
    [return pred], which is no invalid-argument error, and for
    steps <= -2 the RuntimeError of torch.linspace's argument check. *)
Theorem sample_below_one_step_raises
  (normal : nat -> R) (model : FTensor -> list R -> FTensor) (x : FTensor)
  (steps : Z) (eta : R) (w : FWorld) :
  (steps < 1)%Z ->
  exists e,
    sample normal model x steps eta w = (Raise e, w) /\
    ((-1 <= steps)%Z ->
       e = UnboundLocalError /\ invalid_argument_error e = false) /\
    ((steps < -1)%Z ->
       e = RuntimeError /\ invalid_argument_error e = true).
Proof.
  intros H. eexists. split; [ apply sample_below_one; exact H | ].
  destruct (Z.ltb_spec steps (-1)) as [Hlt | Hge].
  - split; [ intros; lia | intros _; split; reflexivity ].
  - split; [ intros _; split; reflexivity | intros; lia ].
Qed.

Lemma sample_below_one_step_raises_witness :
  (0 < 1)%Z /\
  sample (fun _ => 0) (fun x _ => x) [[[Fin 1]]] 0 0 (mkWorld 0 [])
  = (Raise UnboundLocalError, mkWorld 0 []).
Proof.
  assert (H : (0 < 1)%Z) by lia.
  split; [ exact H | ].
  destruct (sample_below_one_step_raises (fun _ => 0) (fun x _ => x) [[[Fin 1]]]
              0 0 (mkWorld 0 []) H) as (e & E & Hu & _).
  destruct (Hu ltac:(lia)) as [-> _]. exact E.
Defined.

(** ** Further facts about the schedule *)

Section ScheduleMore.

Ltac split_signs :=
  repeat match goal with
         | |- context [Rlt_dec ?a ?b] => destruct (Rlt_dec a b)
         | |- context [Rle_dec ?a ?b] => destruct (Rle_dec a b)
         end.

Lemma atan2_scale (c y x : R) : 0 < c -> atan2 (c * y) (c * x) = atan2 y x.
Proof.
  intros Hc. unfold atan2.
  assert (Hq : x <> 0 -> c * y / (c * x) = y / x) by (intros; field; lra).
  split_signs; try (exfalso; nra); try rewrite Hq by lra; reflexivity.
Qed.

Lemma atan2_range (y x : R) : - PI < atan2 y x <= PI.
Proof.
  pose proof PI_RGT_0 as Hpi. pose proof (atan_bound (y / x)) as Hb.
  unfold atan2. split_signs; try lra.
  - (* x < 0, 0 <= y: the quotient is not positive *)
    assert (Hq : y / x <= 0).
    { unfold Rdiv. assert (/ x < 0) by now apply Rinv_lt_0_compat. nra. }
    assert (atan (y / x) <= 0).
    { destruct Hq as [Hq | Hq]; [ | rewrite Hq, atan_0; lra ].
      left. rewrite <- atan_0. now apply atan_increasing. }
    lra.
  - (* x < 0, y < 0: the quotient is positive *)
    assert (Hq : 0 < y / x).
    { unfold Rdiv. assert (/ x < 0) by now apply Rinv_lt_0_compat. nra. }
    assert (0 < atan (y / x)) by (rewrite <- atan_0; now apply atan_increasing).
    lra.
Qed.

Lemma sqrt_one_plus_ratio (alpha sigma : R) :
  alpha <> 0 -> alpha ^ 2 + sigma ^ 2 = 1 ->
  sqrt (1 + (sigma / alpha)²) = / Rabs alpha.
Proof.
  intros Ha Hc.
  replace (1 + (sigma / alpha)²) with ((/ alpha)²).
  - rewrite sqrt_Rsqr_abs. now apply Rabs_inv.
  - unfold Rsqr. field_simplify_eq; [ lra | exact Ha ].
Qed.

(** On the unit circle [atan2] is an angle of the point. *)
Lemma unit_circle_angle (alpha sigma : R) :
  alpha ^ 2 + sigma ^ 2 = 1 ->
  cos (atan2 sigma alpha) = alpha /\ sin (atan2 sigma alpha) = sigma.
Proof.
  intros Hc. unfold atan2.
  destruct (Rlt_dec 0 alpha) as [Hp | Hnp].
  - rewrite cos_atan, sin_atan, sqrt_one_plus_ratio by lra.
    rewrite Rabs_pos_eq by lra. split; field; lra.
  - destruct (Rlt_dec alpha 0) as [Hn | Hnn].
    + assert (E : cos (atan (sigma / alpha)) = - alpha /\
                  sin (atan (sigma / alpha)) = - sigma).
      { rewrite cos_atan, sin_atan, sqrt_one_plus_ratio by lra.
        rewrite Rabs_left by lra. split; field; lra. }
      destruct E as [Ecos Esin].
      destruct (Rle_dec 0 sigma).
      * rewrite neg_cos, neg_sin, Ecos, Esin. split; ring.
      * unfold Rminus. rewrite <- (cos_neg (_ + - PI)), <- (Ropp_involutive (sin (_ + - PI))),
          <- sin_neg.
        replace (- (atan (sigma / alpha) + - PI))
          with (- atan (sigma / alpha) + PI) by ring.
        rewrite neg_cos, neg_sin, cos_neg, sin_neg, Ecos, Esin. split; ring.
    + assert (Ha : alpha = 0) by lra. subst alpha.
      assert (Hs : sigma ^ 2 = 1) by lra.
      destruct (Rlt_dec 0 sigma); [ | destruct (Rlt_dec sigma 0) ].
      * rewrite cos_PI2, sin_PI2. split; [ reflexivity | nra ].
      * rewrite cos_neg, sin_neg, cos_PI2, sin_PI2. split; [ reflexivity | nra ].
      * exfalso. nra.
Qed.

Lemma asin_strict (a b : R) :
  -1 <= a -> a < b -> b <= 1 -> asin a < asin b.
Proof.
  intros Ha Hab Hb.
  destruct (Rlt_dec (asin a) (asin b)) as [H | H]; [ exact H | exfalso ].
  apply Rnot_lt_le in H.
  pose proof (asin_bound a) as Ba. pose proof (asin_bound b) as Bb.
  assert (Hs : sin (asin b) <= sin (asin a)) by (apply sin_incr_1; lra).
  rewrite !sin_asin in Hs by lra. lra.
Qed.

Lemma asin_nonneg (s : R) : 0 <= s <= 1 -> 0 <= asin s <= PI / 2.
Proof.
  intros [H0 H1]. split.
  - rewrite <- asin_0. apply asin_monotone; lra.
  - apply asin_bound.
Qed.

Lemma scaled_asin_unit (s : R) : 0 <= s <= 1 -> 0 <= asin s / PI * 2 <= 1.
Proof.
  intros Hs. pose proof (asin_nonneg s Hs) as [Hlo Hhi].
  pose proof PI_RGT_0 as Hpi.
  assert (Hq : 0 <= asin s / PI <= / 2).
  { unfold Rdiv. split.
    - apply Rmult_le_pos; [ exact Hlo | left; now apply Rinv_0_lt_compat ].
    - apply Rmult_le_reg_r with PI; [ exact Hpi | ].
      rewrite Rmult_assoc, Rinv_l by lra. lra. }
  lra.
Qed.

End ScheduleMore.

(** alpha_sigma_to_t depends on the direction of (alpha, sigma) only: a
    positive common factor does not change the timestep; and every result
    lies in (-2, 2]. *)
Theorem alpha_sigma_to_t_direction_only (c alpha sigma : R) :
  0 < c ->
  alpha_sigma_to_t (c * alpha) (c * sigma) = alpha_sigma_to_t alpha sigma /\
  -2 < alpha_sigma_to_t alpha sigma <= 2.
Proof.
  intros Hc. unfold alpha_sigma_to_t. split.
  - now rewrite atan2_scale.
  - pose proof (atan2_range sigma alpha) as [Hlo Hhi].
    pose proof PI_RGT_0 as Hpi.
    assert (Hi : 0 < / PI) by now apply Rinv_0_lt_compat.
    assert (Hq : -1 < atan2 sigma alpha / PI <= 1).
    { unfold Rdiv. split.
      - apply Rmult_lt_reg_r with PI; [ exact Hpi | ].
        rewrite Rmult_assoc, Rinv_l by lra. lra.
      - apply Rmult_le_reg_r with PI; [ exact Hpi | ].
        rewrite Rmult_assoc, Rinv_l by lra. lra. }
    lra.
Qed.

Lemma alpha_sigma_to_t_direction_only_witness :
  alpha_sigma_to_t (3 * 1) (3 * 2) = alpha_sigma_to_t 1 2.
Proof.
  apply (alpha_sigma_to_t_direction_only 3 1 2). lra.
Defined.

(** get_alphas_sigmas undoes alpha_sigma_to_t on the whole unit circle:
    from the timestep of a pair with alpha^2 + sigma^2 = 1 it gives the
    pair back. *)
Theorem get_alphas_sigmas_of_timestep (alpha sigma : R) :
  alpha ^ 2 + sigma ^ 2 = 1 ->
  get_alphas_sigmas (alpha_sigma_to_t alpha sigma) = (alpha, sigma).
Proof.
  intros Hc. unfold get_alphas_sigmas, alpha_sigma_to_t.
  rewrite half_turn_scale.
  destruct (unit_circle_angle alpha sigma Hc) as [-> ->]. reflexivity.
Qed.

Lemma get_alphas_sigmas_of_timestep_witness :
  get_alphas_sigmas (alpha_sigma_to_t (3 / 5) (- (4 / 5))) = (3 / 5, - (4 / 5)).
Proof.
  apply (get_alphas_sigmas_of_timestep (3 / 5) (- (4 / 5))). field.
Defined.

(** get_crash_schedule sends every real timestep, inside [0,1] or not,
    into [0,1]. *)
Theorem get_crash_schedule_range (t : R) :
  0 <= get_crash_schedule t <= 1.
Proof.
  rewrite get_crash_schedule_asin.
  apply scaled_asin_unit. apply sin_sq_unit.
Qed.

(** At the warped timestep get_alphas_sigmas returns, for every t, the
    pair get_crash_schedule builds: sigma = sin(t*pi/2)^2 and
    alpha = sqrt(1 - sigma^2). *)
Theorem get_alphas_sigmas_of_crash (t : R) :
  get_alphas_sigmas (get_crash_schedule t)
  = (sqrt (1 - (sin (t * PI / 2) ^ 2) ^ 2), sin (t * PI / 2) ^ 2).
Proof.
  unfold get_crash_schedule, get_alphas_sigmas, alpha_sigma_to_t.
  rewrite half_turn_scale.
  pose proof (sin_sq_unit (t * PI / 2)) as Hu.
  destruct (unit_circle_angle (sqrt (1 - (sin (t * PI / 2) ^ 2) ^ 2))
              (sin (t * PI / 2) ^ 2)) as [-> ->]; [ | reflexivity ].
  rewrite pow2_sqrt by nra. ring.
Qed.

(** get_crash_schedule is strictly increasing on [0,1]. *)
Theorem get_crash_schedule_strictly_increasing (t1 t2 : R) :
  0 <= t1 -> t1 < t2 -> t2 <= 1 ->
  get_crash_schedule t1 < get_crash_schedule t2.
Proof.
  intros H0 H12 H1. rewrite !get_crash_schedule_asin.
  destruct (sin_pair_ordered t1 t2 H0 H12 H1) as [Hn Hlt].
  pose proof (sin_sq_unit (t1 * PI / 2)) as U1.
  pose proof (sin_sq_unit (t2 * PI / 2)) as U2.
  assert (Hs : sin (t1 * PI / 2) ^ 2 < sin (t2 * PI / 2) ^ 2) by nra.
  assert (Ha : asin (sin (t1 * PI / 2) ^ 2) < asin (sin (t2 * PI / 2) ^ 2))
    by (apply asin_strict; lra).
  pose proof PI_RGT_0 as Hpi.
  unfold Rdiv. apply Rmult_lt_compat_r; [ lra | ].
  apply Rmult_lt_compat_r; [ now apply Rinv_0_lt_compat | exact Ha ].
Qed.

Lemma get_crash_schedule_strictly_increasing_witness :
  get_crash_schedule (1 / 4) < get_crash_schedule (3 / 4).
Proof.
  apply (get_crash_schedule_strictly_increasing (1 / 4) (3 / 4)); lra.
Defined.

(** On [0,1] the warp never moves a timestep up: get_crash_schedule t <= t,
    strictly below t inside (0,1). *)
Theorem get_crash_schedule_below_identity (t : R) :
  0 <= t <= 1 ->
  get_crash_schedule t <= t /\ (0 < t < 1 -> get_crash_schedule t < t).
Proof.
  intros Ht. rewrite get_crash_schedule_asin.
  pose proof (angle_of_unit t Ht) as Ha.
  pose proof PI_RGT_0 as Hpi.
  pose proof (SIN_bound (t * PI / 2)) as Hb.
  assert (Hs0 : 0 <= sin (t * PI / 2)) by (apply sin_ge_0; lra).
  assert (Hid : asin (sin (t * PI / 2)) = t * PI / 2)
    by (apply asin_sin; lra).
  assert (Hscale : forall a, a <= t * PI / 2 -> a / PI * 2 <= t).
  { intros a Hle. apply Rmult_le_reg_r with (PI / 2); [ lra | ].
    replace (a / PI * 2 * (PI / 2)) with a by (field; lra). lra. }
  assert (Hscale' : forall a, a < t * PI / 2 -> a / PI * 2 < t).
  { intros a Hle. apply Rmult_lt_reg_r with (PI / 2); [ lra | ].
    replace (a / PI * 2 * (PI / 2)) with a by (field; lra). lra. }
  split.
  - apply Hscale. rewrite <- Hid at 2. apply asin_monotone; nra.
  - intros [Hlo Hhi]. apply Hscale'. rewrite <- Hid at 2.
    destruct (sin_pair_ordered 0 t ltac:(lra) Hlo ltac:(lra)) as [_ Hpos].
    destruct (sin_pair_ordered t 1 ltac:(lra) Hhi ltac:(lra)) as [_ Hlt].
    replace (0 * PI / 2) with 0 in Hpos by field. rewrite sin_0 in Hpos.
    replace (1 * PI / 2) with (PI / 2) in Hlt by field. rewrite sin_PI2 in Hlt.
    apply asin_strict; nra.
Qed.

Lemma get_crash_schedule_below_identity_witness :
  get_crash_schedule (1 / 2) <= 1 / 2.
Proof.
  apply (get_crash_schedule_below_identity (1 / 2)). lra.
Defined.

(** ** Further facts about the sampler *)

Section SamplerMore.

Lemma nth_map_seq (g : nat -> R) (k i : nat) (d : R) :
  (i < k)%nat -> nth i (map g (seq 0 k)) d = g i.
Proof.
  intros H.
  rewrite (nth_indep _ d (g 0%nat)) by (rewrite length_map, length_seq; exact H).
  rewrite map_nth. now rewrite seq_nth by exact H.
Qed.

Lemma scaled_asin_strict (a b : R) :
  0 <= a -> a < b -> b <= 1 -> asin a / PI * 2 < asin b / PI * 2.
Proof.
  intros H0 Hab H1.
  assert (Ha : asin a < asin b) by (apply asin_strict; lra).
  pose proof PI_RGT_0 as Hpi.
  unfold Rdiv. apply Rmult_lt_compat_r; [ lra | ].
  apply Rmult_lt_compat_r; [ now apply Rinv_0_lt_compat | exact Ha ].
Qed.

Lemma sched_sigma_strict (steps : Z) (i : nat) :
  (Z.of_nat i < steps - 1)%Z ->
  sched_sigma steps (S i) < sched_sigma steps i.
Proof.
  intros Hi. rewrite !sched_sigma_sq.
  pose proof (timestep_range steps i ltac:(lia)) as R0.
  pose proof (timestep_range steps (S i) ltac:(lia)) as R1.
  pose proof (timestep_decreasing steps i ltac:(lia)) as Hd.
  destruct (sin_pair_ordered (timestep steps (S i)) (timestep steps i)
              ltac:(lra) Hd ltac:(lra)) as [Hn Hlt].
  nra.
Qed.

Lemma sched_t_strict (steps : Z) (i : nat) :
  (Z.of_nat i < steps - 1)%Z -> sched_t steps (S i) < sched_t steps i.
Proof.
  intros Hi. unfold sched_t. rewrite !get_crash_schedule_asin.
  pose proof (sched_sigma_strict steps i Hi) as Hs.
  rewrite !sched_sigma_sq in Hs.
  apply scaled_asin_strict; [ apply sin_sq_unit | exact Hs | apply sin_sq_unit ].
Qed.

Lemma sched_alpha_strict (steps : Z) (i : nat) :
  (Z.of_nat i < steps - 1)%Z ->
  sched_alpha steps i < sched_alpha steps (S i).
Proof.
  intros Hi.
  pose proof (sched_sigma_strict steps i Hi) as Hs.
  destruct (sched_sigma_range steps (S i) ltac:(lia)) as [[Hn0 _] _].
  destruct (sched_alpha_sq steps i) as [Ha0 Ha].
  destruct (sched_alpha_sq steps (S i)) as [Hb0 Hb].
  nra.
Qed.

Lemma sched_first (steps : Z) :
  (1 <= steps)%Z ->
  sched_t steps 0 = 1 /\ sched_alpha steps 0 = 0 /\ sched_sigma steps 0 = 1.
Proof.
  intros Hs.
  assert (Ht : sched_t steps 0 = get_crash_schedule 1).
  { unfold sched_t, timestep. f_equal. simpl. unfold Rdiv.
    rewrite Rmult_0_l. apply Rminus_0_r. }
  unfold sched_alpha, sched_sigma. rewrite Ht, first_coefficients.
  repeat split.
  rewrite get_crash_schedule_asin.
  replace (1 * PI / 2) with (PI / 2) by field.
  rewrite sin_PI2. replace (1 ^ 2) with 1 by ring. rewrite asin_1.
  field. apply PI_neq_0.
Qed.

Lemma numel_same_shape {A B : Type} (x : list (list (list A)))
  (y : list (list (list B))) : same_shape x y -> numel x = numel y.
Proof.
  intros H. unfold numel. induction H as [| m m' x y Hm H IH]; simpl.
  - reflexivity.
  - rewrite IH. f_equal. clear IH H.
    induction Hm as [| r r' m m' Hr Hm IH]; simpl; [ reflexivity | ].
    now rewrite Hr, IH.
Qed.

(** With [eta = 0] no noise scale is set aside: [ddim_sigma] is 0 and
    [adjusted_sigma] is the next noise level. *)
Lemma eta0_coefficients (steps : Z) (i : nat) (r r' : R) :
  (Z.of_nat i < steps - 1)%Z ->
  sqrt (sched_sigma steps (S i) ^ 2 - (0 * r * r') ^ 2)
  = sched_sigma steps (S i).
Proof.
  intros Hi.
  destruct (sched_sigma_range steps (S i) ltac:(lia)) as [[Hn0 _] _].
  replace (sched_sigma steps (S i) ^ 2 - (0 * r * r') ^ 2)
    with (sched_sigma steps (S i) ^ 2) by ring.
  apply sqrt_pow2. lra.
Qed.

Lemma eta0_adjusted_sigma (steps : Z) (i : nat) :
  (Z.of_nat i < steps - 1)%Z ->
  fsqrt
    (fsub (Fin (sched_sigma steps (S i) ^ 2))
       (fmul
          (fmul (fmul (Fin 0)
                   (fsqrt (rdiv (sched_sigma steps (S i) ^ 2)
                                (sched_sigma steps i ^ 2))))
             (fsqrt (fsub (Fin 1)
                       (rdiv (sched_alpha steps i ^ 2)
                             (sched_alpha steps (S i) ^ 2)))))
          (fmul (fmul (Fin 0)
                   (fsqrt (rdiv (sched_sigma steps (S i) ^ 2)
                                (sched_sigma steps i ^ 2))))
             (fsqrt (fsub (Fin 1)
                       (rdiv (sched_alpha steps i ^ 2)
                             (sched_alpha steps (S i) ^ 2)))))))
  = Fin (sched_sigma steps (S i)).
Proof.
  intros Hi.
  rewrite (ddim_sigma_float steps 0 i Hi), adjusted_sigma_float.
  assert (Hd : ddim_sigma_at steps 0 i ^ 2 = (0 * 0 * 0) ^ 2)
    by (unfold ddim_sigma_at; ring).
  rewrite adjusted_sigma_finite.
  - f_equal. rewrite Hd. now apply eta0_coefficients.
  - rewrite Hd.
    replace (sched_sigma steps (S i) ^ 2 - (0 * 0 * 0) ^ 2)
      with (sched_sigma steps (S i) ^ 2) by ring.
    apply pow2_ge_0.
Qed.


(** The recombination of [pred] and [eps] has the shape of [x]. *)
Lemma recombined_shape (x v : FTensor) (a b c d e f : float) :
  same_shape v x ->
  same_shape
    (ftadd (ftscale (ftsub (ftscale x a) (ftscale v b)) c)
          (ftscale (ftadd (ftscale x d) (ftscale v e)) f)) x.
Proof.
  intros Hv. apply tzip_shape_of; apply ftscale_shape_of;
    apply tzip_shape_of; apply ftscale_shape_of;
    first [ apply same_shape_refl | exact Hv ].
Qed.

(** With [eta <> 0] every iteration but the last draws one value per
    element of the signal. *)
Lemma trajectory_rng_pos (normal : nat -> R)
  (model : FTensor -> list R -> FTensor) (x0 : FTensor) (steps : Z) (eta : R)
  (w0 : FWorld) (k : nat) :
  shape_preserving model -> eta <> 0 -> (Z.of_nat k <= steps)%Z ->
  rng_pos (snd (trajectory normal model x0 steps eta w0 k))
  = (rng_pos w0 + Nat.min k (Z.to_nat steps - 1) * numel x0)%nat.
Proof.
  intros Hm He. induction k as [| k IH]; intros Hk.
  - simpl. lia.
  - specialize (IH ltac:(lia)).
    pose proof (traj_shape normal model x0 steps eta w0 k Hm) as Hx.
    simpl trajectory.
    destruct (trajectory normal model x0 steps eta w0 k) as [st w].
    simpl in IH, Hx. unfold iteration.
    destruct (Z.ltb_spec (Z.of_nat k) (steps - 1)) as [Hlt | Hge].
    + destruct (Req_dec_T eta 0) as [H0 | _]; [ contradiction | ].
      cbn [rng_pos].
      match goal with
      | |- context [frandn_fill normal ?x' (rng_pos w)] =>
          pose proof (frandn_fill_pos normal x' (rng_pos w)) as Hp;
          assert (Hn : numel x' = numel x0)
            by (apply numel_same_shape;
                apply same_shape_trans with (loc_x st);
                [ apply recombined_shape, Hm | exact Hx ]);
          destruct (frandn_fill normal x' (rng_pos w)) as [noise pos]
      end.
      cbn [snd rng_pos] in *. rewrite Hp, Hn, IH.
      replace (Nat.min (S k) (Z.to_nat steps - 1)) with (S k) by lia.
      replace (Nat.min k (Z.to_nat steps - 1)) with k by lia. lia.
    + cbn [snd rng_pos]. rewrite IH.
      replace (Nat.min (S k) (Z.to_nat steps - 1)) with (Z.to_nat steps - 1)%nat
        by lia.
      replace (Nat.min k (Z.to_nat steps - 1)) with (Z.to_nat steps - 1)%nat
        by lia.
      reflexivity.
Qed.

End SamplerMore.

(** For steps >= 2 the schedule sample builds starts at pure noise
    (t = 1, alpha = 0, sigma = 1) and moves strictly toward the clean end:
    from each entry to the next the warped timestep and sigma strictly
    decrease and alpha strictly increases, and sigma stays positive. *)
Theorem noise_schedule_strictly_ordered (steps : Z) (i : nat) :
  (Z.of_nat i + 1 < steps)%Z ->
  exists t alphas sigmas,
    noise_schedule steps = Ok (t, alphas, sigmas) /\
    length t = Z.to_nat steps /\
    length alphas = Z.to_nat steps /\
    length sigmas = Z.to_nat steps /\
    nth 0 t 0 = 1 /\ nth 0 alphas 0 = 0 /\ nth 0 sigmas 0 = 1 /\
    nth (S i) t 0 < nth i t 0 /\
    nth i alphas 0 < nth (S i) alphas 0 /\
    0 < nth (S i) sigmas 0 < nth i sigmas 0.
Proof.
  intros Hi.
  assert (Hs : (1 <= steps)%Z) by lia.
  do 3 eexists. split; [ apply (noise_schedule_run steps Hs) | ].
  rewrite !length_map, !length_seq.
  rewrite !nth_map_seq by lia.
  destruct (sched_first steps Hs) as (Et & Ea & Es).
  destruct (sched_sigma_range steps (S i) ltac:(lia)) as [[Hn0 _] _].
  pose proof (sched_t_strict steps i ltac:(lia)).
  pose proof (sched_alpha_strict steps i ltac:(lia)).
  pose proof (sched_sigma_strict steps i ltac:(lia)).
  repeat split; assumption.
Qed.

Lemma noise_schedule_strictly_ordered_witness :
  exists t alphas sigmas,
    noise_schedule 3 = Ok (t, alphas, sigmas) /\
    nth 2 sigmas 0 < nth 1 sigmas 0.
Proof.
  destruct (noise_schedule_strictly_ordered 3 1 ltac:(simpl; lia))
    as (t & alphas & sigmas & E & _ & _ & _ & _ & _ & _ & _ & _ & _ & H).
  exists t, alphas, sigmas. split; [ exact E | exact H ].
Defined.

(** With eta = 0 an iteration that is not the last moves the state along
    the schedule with the same two estimates: the next x is
    pred*alphas[i+1] + eps*sigmas[i+1], and the generator is left alone.
    The denoiser is taken to keep the shape of its input. *)
Theorem sample_eta0_ddim_update
  (normal : nat -> R) (model : FTensor -> list R -> FTensor) (x0 : FTensor)
  (steps : Z) (w0 : FWorld) (i : nat) :
  shape_preserving model ->
  (Z.of_nat i < steps - 1)%Z ->
  exists st w st' w',
    sample_loop normal model x0 steps 0 (range (Z.of_nat i)) w0
    = (Ok st, w) /\
    sample_loop normal model x0 steps 0 (range (Z.of_nat i + 1)) w0
    = (Ok st', w') /\
    let x := loc_x st in
    let v := model x (repeat (sched_t steps i) (length x0)) in
    let pred :=
      ftsub (ftscale x (sched_alpha steps i)) (ftscale v (sched_sigma steps i)) in
    let eps :=
      ftadd (ftscale x (sched_sigma steps i)) (ftscale v (sched_alpha steps i)) in
    loc_x st'
    = ftadd (ftscale pred (sched_alpha steps (S i)))
           (ftscale eps (sched_sigma steps (S i))) /\
    rng_pos w' = rng_pos w.
Proof.
  intros Hm Hi.
  assert (Hs : (1 <= steps)%Z) by lia.
  pose proof (sample_loop_prefix normal model x0 steps 0 w0 Hs i ltac:(lia))
    as E1.
  pose proof (sample_loop_prefix normal model x0 steps 0 w0 Hs (S i)
                ltac:(lia)) as E2.
  replace (Z.of_nat (S i)) with (Z.of_nat i + 1)%Z in E2 by lia.
  simpl trajectory in E2.
  destruct (trajectory normal model x0 steps 0 w0 i) as [st w].
  simpl in E1.
  eexists st, w, _, _. split; [ exact E1 | ]. split; [ exact E2 | ].
  unfold iteration. cbn zeta.
  destruct (Z.ltb_spec (Z.of_nat i) (steps - 1)) as [_ | Hge]; [ | lia ].
  destruct (Req_dec_T 0 0) as [_ | Hn]; [ | now contradiction Hn ].
  cbn [fst snd loc_x rng_pos].
  rewrite eta0_adjusted_sigma by exact Hi. split; reflexivity.
Qed.

Lemma sample_eta0_ddim_update_witness :
  shape_preserving (fun (x : FTensor) (_ : list R) => x) /\
  (Z.of_nat 0 < 2 - 1)%Z /\
  exists st' w',
    sample_loop (fun _ => 0) (fun x _ => x) [[[Fin 1]]] 2 0 (range 1)
                (mkWorld 5 []) = (Ok st', w') /\
    rng_pos w' = 5%nat.
Proof.
  assert (Hm : shape_preserving (fun (x : FTensor) (_ : list R) => x))
    by (intros x tv; apply same_shape_refl).
  assert (Hi : (Z.of_nat 0 < 2 - 1)%Z) by (simpl; lia).
  split; [ exact Hm | ]. split; [ exact Hi | ].
  destruct (sample_eta0_ddim_update (fun _ => 0) (fun x _ => x) [[[Fin 1]]] 2
              (mkWorld 5 []) 0 Hm Hi)
    as (st & w & st' & w' & E1 & E2 & _ & Hp).
  exists st', w'. split; [ exact E2 | ].
  assert (Hw : w = mkWorld 5 []).
  { rewrite sample_loop_unfold in E1 by lia. simpl in E1. unfold ret in E1.
    congruence. }
  rewrite Hp, Hw. reflexivity.
Defined.



(** With eta <> 0 and steps >= 1 a call of sample draws one value per
    element of the signal in every iteration but the last: it moves the
    generator on by (steps - 1) * numel(x) positions, and invokes the
    denoiser steps times.  The denoiser is taken to keep the shape of its
    input. *)
Theorem sample_generator_advance
  (normal : nat -> R) (model : FTensor -> list R -> FTensor) (x0 : FTensor)
  (steps : Z) (eta : R) (w0 : FWorld) :
  shape_preserving model ->
  (1 <= steps)%Z ->
  eta <> 0 ->
  exists out w new,
    sample normal model x0 steps eta w0 = (Ok out, w) /\
    rng_pos w = (rng_pos w0 + (Z.to_nat steps - 1) * numel x0)%nat /\
    calls w = calls w0 ++ new /\
    length new = Z.to_nat steps.
Proof.
  intros Hm Hs He.
  destruct (sample_run normal model x0 steps eta w0 Hs) as [p [_ E]].
  destruct (traj_calls normal model x0 steps eta w0 (Z.to_nat steps))
    as [new [Hc Hn]].
  pose proof (trajectory_rng_pos normal model x0 steps eta w0 (Z.to_nat steps)
                Hm He ltac:(lia)) as Hp.
  exists p, (snd (trajectory normal model x0 steps eta w0 (Z.to_nat steps))),
    new.
  split; [ exact E | ]. split; [ | split; [ exact Hc | ] ].
  - rewrite Hp. f_equal. f_equal. lia.
  - rewrite <- (length_map snd), Hn, length_map, length_seq. reflexivity.
Qed.

Lemma sample_generator_advance_witness :
  shape_preserving (fun (x : FTensor) (_ : list R) => x) /\
  (1 <= 3)%Z /\
  1 <> 0 /\
  rng_pos (snd (sample (fun p => INR p) (fun x _ => x) [[[Fin 1; Fin 2]; [Fin 3; Fin 4]]] 3 1
                  (mkWorld 10 []))) = 18%nat.
Proof.
  assert (Hm : shape_preserving (fun (x : FTensor) (_ : list R) => x))
    by (intros x tv; apply same_shape_refl).
  assert (Hs : (1 <= 3)%Z) by lia.
  assert (He : 1 <> 0) by lra.
  split; [ exact Hm | ]. split; [ exact Hs | ]. split; [ exact He | ].
  destruct (sample_generator_advance (fun p => INR p) (fun x _ => x)
              [[[Fin 1; Fin 2]; [Fin 3; Fin 4]]] 3 1 (mkWorld 10 []) Hm Hs He)
    as (out & w & new & E & Hp & _).
  rewrite E. simpl. rewrite Hp. reflexivity.
Defined.

(** ** The training step *)

Section TrainingFacts.

Lemma tscale_batch_shape (x : Tensor) (a : list R) :
  length a = length x -> same_shape (tscale_batch x a) x.
Proof.
  revert a. induction x as [| m x IH]; intros [| c a] H; simpl in H;
    try discriminate; simpl.
  - constructor.
  - constructor; [ | apply IH; congruence ].
    apply map_Forall2. intros r. apply length_map.
Qed.

Lemma tscale_batch_repeat (x : Tensor) (c : R) :
  tscale_batch x (repeat c (length x)) = tscale x c.
Proof.
  unfold tscale_batch, tscale, tmap.
  induction x as [| m x IH]; simpl; [ reflexivity | now rewrite IH ].
Qed.

Lemma tscale_batch_repeat_len (x : Tensor) (c : R) (k : nat) :
  length x = k -> tscale_batch x (repeat c k) = tscale x c.
Proof. intros <-. apply tscale_batch_repeat. Qed.

(** Undoing the mix on one row: from [noised = r*a + n*s] and
    [target = n*a - r*s] back to the signal [r] and the noise [n]. *)
Lemma unmix_row (a s : R) (r n : list R) :
  a ^ 2 + s ^ 2 = 1 -> length n = length r ->
  zipWith Rminus
    (map (fun e => e * a)
       (zipWith Rplus (map (fun e => e * a) r) (map (fun e => e * s) n)))
    (map (fun e => e * s)
       (zipWith Rminus (map (fun e => e * a) n) (map (fun e => e * s) r)))
  = r /\
  zipWith Rplus
    (map (fun e => e * s)
       (zipWith Rplus (map (fun e => e * a) r) (map (fun e => e * s) n)))
    (map (fun e => e * a)
       (zipWith Rminus (map (fun e => e * a) n) (map (fun e => e * s) r)))
  = n.
Proof.
  intros Hc. revert n.
  induction r as [| x r IH]; intros [| y n] H; simpl in H; simpl;
    try discriminate; [ split; reflexivity | ].
  destruct (IH n ltac:(congruence)) as [IH1 IH2].
  split; f_equal; try assumption.
  - replace ((x * a + y * s) * a - (y * a - x * s) * s)
      with (x * (a ^ 2 + s ^ 2)) by ring.
    rewrite Hc. ring.
  - replace ((x * a + y * s) * s + (y * a - x * s) * a)
      with (y * (a ^ 2 + s ^ 2)) by ring.
    rewrite Hc. ring.
Qed.

Lemma unmix_example (a s : R) (m n : list (list R)) :
  a ^ 2 + s ^ 2 = 1 ->
  Forall2 (fun r r' : list R => length r = length r') n m ->
  zipWith (zipWith Rminus)
    (map (map (fun e => e * a))
       (zipWith (zipWith Rplus) (map (map (fun e => e * a)) m)
                                (map (map (fun e => e * s)) n)))
    (map (map (fun e => e * s))
       (zipWith (zipWith Rminus) (map (map (fun e => e * a)) n)
                                 (map (map (fun e => e * s)) m)))
  = m /\
  zipWith (zipWith Rplus)
    (map (map (fun e => e * s))
       (zipWith (zipWith Rplus) (map (map (fun e => e * a)) m)
                                (map (map (fun e => e * s)) n)))
    (map (map (fun e => e * a))
       (zipWith (zipWith Rminus) (map (map (fun e => e * a)) n)
                                 (map (map (fun e => e * s)) m)))
  = n.
Proof.
  intros Hc H. induction H as [| r' r n m Hr H [IH1 IH2]]; simpl.
  - split; reflexivity.
  - destruct (unmix_row a s r r' Hc Hr) as [E1 E2].
    split; f_equal; assumption.
Qed.

Lemma unmix_batch (t : list R) (reals noise : Tensor) :
  same_shape noise reals -> length t = length reals ->
  let alphas := map (fun u => fst (get_alphas_sigmas u)) t in
  let sigmas := map (fun u => snd (get_alphas_sigmas u)) t in
  let noised := tadd (tscale_batch reals alphas) (tscale_batch noise sigmas) in
  let targets := tsub (tscale_batch noise alphas) (tscale_batch reals sigmas) in
  tsub (tscale_batch noised alphas) (tscale_batch targets sigmas) = reals /\
  tadd (tscale_batch noised sigmas) (tscale_batch targets alphas) = noise.
Proof.
  intros H. revert t. cbn zeta. unfold tadd, tsub, tzip, tscale_batch.
  induction H as [| n m noise reals Hm H IH]; intros [| u t] Ht;
    simpl in Ht; try discriminate; simpl.
  - split; reflexivity.
  - destruct (IH t ltac:(congruence)) as [IH1 IH2].
    assert (Hc : cos (u * PI / 2) ^ 2 + sin (u * PI / 2) ^ 2 = 1).
    { pose proof (sin2_cos2 (u * PI / 2)) as Hu. unfold Rsqr in Hu. lra. }
    destruct (unmix_example _ _ m n Hc Hm) as [E1 E2].
    split; f_equal; assumption.
Qed.

Lemma rsum_nonneg (l : list R) : Forall (fun e => 0 <= e) l -> 0 <= rsum l.
Proof.
  induction 1 as [| e l He H IH]; simpl; [ lra | lra ].
Qed.

Lemma rsum_zero (l : list R) :
  Forall (fun e => 0 <= e) l -> rsum l = 0 -> Forall (fun e => e = 0) l.
Proof.
  induction 1 as [| e l He H IH]; simpl; intros Hz; constructor.
  - pose proof (rsum_nonneg l H). lra.
  - apply IH. pose proof (rsum_nonneg l H). lra.
Qed.

Lemma sq_row_nonneg (r r' : list R) : 0 <= rsum (zipWith sqdiff r r').
Proof.
  apply rsum_nonneg. revert r'.
  induction r as [| a r IH]; intros [| b r']; simpl; constructor.
  - unfold sqdiff. apply pow2_ge_0.
  - apply IH.
Qed.

Lemma sq_row_zero (r r' : list R) :
  length r = length r' -> rsum (zipWith sqdiff r r') = 0 -> r = r'.
Proof.
  revert r'. induction r as [| a r IH]; intros [| b r'] H; simpl in H;
    try discriminate; simpl; intros Hz; [ reflexivity | ].
  pose proof (sq_row_nonneg r r') as Hn.
  assert (Ha : 0 <= sqdiff a b) by (unfold sqdiff; apply pow2_ge_0).
  f_equal.
  - assert (Hab : sqdiff a b = 0) by lra. unfold sqdiff in Hab.
    apply Rminus_diag_uniq. apply Rsqr_eq_0. rewrite Rsqr_pow2. exact Hab.
  - apply IH; [ congruence | lra ].
Qed.

Lemma sq_example_nonneg (m m' : list (list R)) :
  0 <= rsum (map rsum (zipWith (zipWith sqdiff) m m')).
Proof.
  apply rsum_nonneg. revert m'.
  induction m as [| r m IH]; intros [| r' m']; simpl; constructor.
  - apply sq_row_nonneg.
  - apply IH.
Qed.

Lemma sq_example_zero (m m' : list (list R)) :
  Forall2 (fun r r' : list R => length r = length r') m m' ->
  rsum (map rsum (zipWith (zipWith sqdiff) m m')) = 0 -> m = m'.
Proof.
  induction 1 as [| r r' m m' Hr H IH]; simpl; intros Hz; [ reflexivity | ].
  pose proof (sq_row_nonneg r r').
  pose proof (sq_example_nonneg m m').
  f_equal; [ apply sq_row_zero; [ exact Hr | lra ] | apply IH; lra ].
Qed.

Lemma sq_tensor_nonneg (x y : Tensor) : 0 <= tsum (tzip sqdiff x y).
Proof.
  unfold tsum, tzip. apply rsum_nonneg. revert y.
  induction x as [| m x IH]; intros [| m' y]; simpl; constructor.
  - apply sq_example_nonneg.
  - apply IH.
Qed.

Lemma sq_tensor_zero (x y : Tensor) :
  same_shape x y -> tsum (tzip sqdiff x y) = 0 -> x = y.
Proof.
  unfold tsum, tzip.
  induction 1 as [| m m' x y Hm H IH]; simpl; intros Hz; [ reflexivity | ].
  pose proof (sq_example_nonneg m m').
  pose proof (sq_tensor_nonneg x y) as Hn. unfold tsum, tzip in Hn.
  f_equal; [ apply sq_example_zero; [ exact Hm | lra ] | apply IH; lra ].
Qed.

Lemma sq_tensor_same (x : Tensor) : tsum (tzip sqdiff x x) = 0.
Proof.
  unfold tsum, tzip. induction x as [| m x IH]; simpl; [ reflexivity | ].
  rewrite IH, Rplus_0_r. clear IH.
  induction m as [| r m IH]; simpl; [ reflexivity | ].
  rewrite IH, Rplus_0_r. clear IH.
  induction r as [| a r IH]; simpl; [ reflexivity | ].
  rewrite IH. unfold sqdiff. ring.
Qed.

(** The mean squared error over a non-empty tensor is never negative and
    vanishes exactly at the target. *)
Lemma mse_loss_zero_iff (v targets : Tensor) :
  same_shape v targets -> (0 < numel targets)%nat ->
  0 <= mse_loss v targets /\ (mse_loss v targets = 0 <-> v = targets).
Proof.
  intros Hs Hn. unfold mse_loss.
  assert (Hp : 0 < INR (numel targets)) by now apply lt_0_INR.
  assert (Hi : 0 < / INR (numel targets)) by now apply Rinv_0_lt_compat.
  pose proof (sq_tensor_nonneg v targets) as H0.
  split; [ | split ].
  - apply Rmult_le_pos; lra.
  - intros Hz. apply sq_tensor_zero; [ exact Hs | ].
    unfold Rdiv in Hz. apply Rmult_integral in Hz. lra.
  - intros ->. rewrite sq_tensor_same. unfold Rdiv. apply Rmult_0_l.
Qed.

End TrainingFacts.

Section TrainingStepFacts.

Lemma training_pair_shapes (reals noise : Tensor) (t : list R) :
  same_shape noise reals -> length t = length reals ->
  same_shape (fst (training_pair reals noise t)) reals /\
  same_shape (snd (training_pair reals noise t)) reals.
Proof.
  intros Hn Ht. unfold training_pair. simpl.
  assert (Hl : length noise = length reals)
    by (apply (Forall2_length Hn)).
  split; apply tzip_shape_of;
    first [ apply tscale_batch_shape; now rewrite length_map
          | apply same_shape_trans with noise; [ | exact Hn ];
            apply tscale_batch_shape; rewrite length_map; congruence ].
Qed.

Lemma crash_schedule_t_unit (u : list R) :
  Forall (fun v => 0 <= v <= 1) (get_crash_schedule_t u).
Proof.
  unfold get_crash_schedule_t. apply Forall_forall. intros v Hv.
  apply in_map_iff in Hv. destruct Hv as [x [<- _]].
  rewrite get_crash_schedule_asin. apply scaled_asin_unit, sin_sq_unit.
Qed.

End TrainingStepFacts.

(** The velocity target can be undone example by example: from the noised
    signal and the target of training_step, the combinations
    noised*alpha - target*sigma and noised*sigma + target*alpha, taken with
    each example's own coefficients, are the clean signal and the noise. *)
Theorem training_pair_inverts (reals noise : Tensor) (t : list R) :
  same_shape noise reals ->
  length t = length reals ->
  let alphas := fst (get_alphas_sigmas_t t) in
  let sigmas := snd (get_alphas_sigmas_t t) in
  let noised_reals := fst (training_pair reals noise t) in
  let targets := snd (training_pair reals noise t) in
  tsub (tscale_batch noised_reals alphas) (tscale_batch targets sigmas)
  = reals /\
  tadd (tscale_batch noised_reals sigmas) (tscale_batch targets alphas)
  = noise.
Proof.
  intros Hs Ht. unfold training_pair, get_alphas_sigmas_t. cbn zeta.
  cbn [fst snd]. exact (unmix_batch t reals noise Hs Ht).
Qed.

Lemma training_pair_inverts_witness :
  same_shape [[[3]]] [[[2]]] /\
  tsub (tscale_batch (fst (training_pair [[[2]]] [[[3]]] [1 / 2]))
                     (fst (get_alphas_sigmas_t [1 / 2])))
       (tscale_batch (snd (training_pair [[[2]]] [[[3]]] [1 / 2]))
                     (snd (get_alphas_sigmas_t [1 / 2])))
  = [[[2]]].
Proof.
  assert (Hs : same_shape [[[3]]] [[[2]]]) by (repeat constructor).
  split; [ exact Hs | ].
  exact (proj1 (training_pair_inverts [[[2]]] [[[3]]] [1 / 2] Hs eq_refl)).
Defined.

(** The sampler's two estimates invert the training pair: if the whole
    batch is noised at one timestep t0 and the velocity is the training
    target, then pred = x*alpha - v*sigma and eps = x*sigma + v*alpha, as
    the sampling loop computes them at t0, are the clean signal and the
    noise. *)
Theorem sampler_estimates_invert_training_pair
  (reals noise : Tensor) (t0 : R) :
  same_shape noise reals ->
  let x := fst (training_pair reals noise (repeat t0 (length reals))) in
  let v := snd (training_pair reals noise (repeat t0 (length reals))) in
  let alpha := fst (get_alphas_sigmas t0) in
  let sigma := snd (get_alphas_sigmas t0) in
  tsub (tscale x alpha) (tscale v sigma) = reals /\
  tadd (tscale x sigma) (tscale v alpha) = noise.
Proof.
  intros Hs. cbn zeta.
  assert (Ht : length (repeat t0 (length reals)) = length reals)
    by apply repeat_length.
  destruct (training_pair_shapes reals noise _ Hs Ht) as [Hx Hv].
  pose proof (unmix_batch (repeat t0 (length reals)) reals noise Hs Ht) as H.
  cbn zeta in H. rewrite !map_repeat in H.
  unfold training_pair, get_alphas_sigmas_t in *. cbn [fst snd] in *.
  rewrite !map_repeat in *.
  set (x := tadd _ _) in *. set (v := tsub _ _) in *.
  rewrite !(tscale_batch_repeat_len x) in H by exact (Forall2_length Hx).
  rewrite !(tscale_batch_repeat_len v) in H by exact (Forall2_length Hv).
  exact H.
Qed.

Lemma sampler_estimates_invert_training_pair_witness :
  same_shape [[[3; 4]]] [[[1; 2]]] /\
  tadd (tscale (fst (training_pair [[[1; 2]]] [[[3; 4]]] (repeat (1 / 3) 1)))
               (snd (get_alphas_sigmas (1 / 3))))
       (tscale (snd (training_pair [[[1; 2]]] [[[3; 4]]] (repeat (1 / 3) 1)))
               (fst (get_alphas_sigmas (1 / 3))))
  = [[[3; 4]]].
Proof.
  assert (Hs : same_shape [[[3; 4]]] [[[1; 2]]]) by (repeat constructor).
  split; [ exact Hs | ].
  exact (proj2 (sampler_estimates_invert_training_pair
                  [[[1; 2]]] [[[3; 4]]] (1 / 3) Hs)).
Defined.

(** The loss training_step returns for a non-empty batch is the mean
    squared error between the network's output and the velocity target; it
    is never negative, and it is 0 exactly when the network returns the
    target.  The network is taken to keep the shape of its input. *)
Theorem training_step_loss
  (sobol normal : nat -> R) (diffusion : Tensor -> list R -> Tensor)
  (reals : Tensor) (s : TrainState) :
  shape_preserving diffusion ->
  (0 < numel reals)%nat ->
  let t :=
    get_crash_schedule_t (map sobol (seq (sobol_pos s) (length reals))) in
  let noise := fst (randn_fill normal reals (rng_pos (train_world s))) in
  let noised_reals := fst (training_pair reals noise t) in
  let targets := snd (training_pair reals noise t) in
  let loss := fst (training_step sobol normal diffusion reals s) in
  loss = mse_loss (diffusion noised_reals t) targets /\
  0 <= loss /\
  (loss = 0 <-> diffusion noised_reals t = targets).
Proof.
  intros Hm Hn. cbn zeta.
  pose proof (randn_fill_shape normal reals (rng_pos (train_world s))) as Hs.
  unfold training_step, sobol_draw.
  destruct (randn_fill normal reals (rng_pos (train_world s)))
    as [noise npos].
  cbn [fst snd] in *.
  set (t := get_crash_schedule_t _).
  assert (Ht : length t = length reals)
    by (unfold t, get_crash_schedule_t; now rewrite !length_map, length_seq).
  destruct (training_pair_shapes reals noise t Hs Ht) as [Hx Hv].
  destruct (training_pair reals noise t) as [noised_reals targets].
  cbn [fst snd] in *.
  split; [ reflexivity | ].
  apply mse_loss_zero_iff.
  - apply same_shape_trans with noised_reals; [ apply Hm | ].
    apply same_shape_trans with reals; [ exact Hx | ].
    now apply same_shape_sym.
  - now rewrite (numel_same_shape _ _ Hv).
Qed.

Lemma training_step_loss_witness :
  shape_preserving (fun (x : Tensor) (_ : list R) => x) /\
  (0 < numel [[[1; 2]]%R])%nat /\
  0 <= fst (training_step (fun _ => 1 / 2) (fun p => INR p) (fun x _ => x)
              [[[1; 2]]] (mkTrain 0 (mkWorld 0 []) [])).
Proof.
  assert (Hm : shape_preserving (fun (x : Tensor) (_ : list R) => x))
    by (intros x tv; apply same_shape_refl).
  assert (Hn : (0 < numel [[[1; 2]]%R])%nat) by (unfold numel; simpl; lia).
  split; [ exact Hm | ]. split; [ exact Hn | ].
  exact (proj1 (proj2 (training_step_loss (fun _ => 1 / 2) (fun p => INR p)
                         (fun x _ => x) [[[1; 2]]]
                         (mkTrain 0 (mkWorld 0 []) []) Hm Hn))).
Defined.

(** One training step takes one Sobol point per example and one normal
    draw per element of the batch, calls the network once, on a noised
    signal of the shape of the batch and with one timestep per example,
    each inside [0,1] whatever the Sobol points are, and logs the loss
    under both keys. *)
Theorem training_step_effects
  (sobol normal : nat -> R) (diffusion : Tensor -> list R -> Tensor)
  (reals : Tensor) (s : TrainState) :
  let loss := fst (training_step sobol normal diffusion reals s) in
  let s' := snd (training_step sobol normal diffusion reals s) in
  sobol_pos s' = (sobol_pos s + length reals)%nat /\
  rng_pos (train_world s') = (rng_pos (train_world s) + numel reals)%nat /\
  logged s' = logged s ++ [(loss, loss)] /\
  exists noised_reals t,
    calls (train_world s') = calls (train_world s) ++ [(noised_reals, t)] /\
    same_shape noised_reals reals /\
    length t = length reals /\
    Forall (fun u => 0 <= u <= 1) t.
Proof.
  cbn zeta.
  pose proof (randn_fill_shape normal reals (rng_pos (train_world s))) as Hs.
  pose proof (randn_fill_pos normal reals (rng_pos (train_world s))) as Hp.
  unfold training_step, sobol_draw.
  destruct (randn_fill normal reals (rng_pos (train_world s)))
    as [noise npos].
  cbn [fst snd] in *.
  set (t := get_crash_schedule_t _).
  assert (Ht : length t = length reals)
    by (unfold t, get_crash_schedule_t; now rewrite !length_map, length_seq).
  destruct (training_pair_shapes reals noise t Hs Ht) as [Hx _].
  destruct (training_pair reals noise t) as [noised_reals targets].
  cbn [fst snd sobol_pos train_world rng_pos logged calls] in *.
  split; [ reflexivity | ]. split; [ exact Hp | ]. split; [ reflexivity | ].
  exists noised_reals, t. split; [ reflexivity | ].
  split; [ exact Hx | ]. split; [ exact Ht | ].
  apply crash_schedule_t_unit.
Qed.

(** ** The demo callback *)

Section DemoFacts.

Lemma list_sum_repeat (k n : nat) : list_sum (repeat k n) = (n * k)%nat.
Proof. induction n as [| n IH]; simpl; [ reflexivity | now rewrite IH ]. Qed.

Lemma numel_zeros {A : Type} (z : A) (a b c : nat) :
  numel (repeat (repeat (repeat z c) b) a) = (a * b * c)%nat.
Proof.
  unfold numel. rewrite !map_repeat, repeat_length, list_sum_repeat,
    list_sum_repeat. lia.
Qed.

(** [torch.randn] with sizes that are not negative. *)
Lemma randn_run (normal : nat -> R) (a b c : Z) (w : FWorld) :
  (0 <= a)%Z -> (0 <= b)%Z -> (0 <= c)%Z ->
  exists noise,
    randn normal a b c w
    = (Ok noise,
       mkWorld (rng_pos w + Z.to_nat (a * b * c)) (calls w)) /\
    length noise = Z.to_nat a /\
    numel noise = Z.to_nat (a * b * c).
Proof.
  intros Ha Hb Hc. unfold randn.
  destruct (Z.ltb_spec a 0); [ lia | ].
  destruct (Z.ltb_spec b 0); [ lia | ].
  destruct (Z.ltb_spec c 0); [ lia | ].
  change (false || false || false) with false. cbv iota.
  unfold randn_like.
  set (z := repeat (repeat (repeat (Fin 0) (Z.to_nat c)) (Z.to_nat b))
              (Z.to_nat a)).
  pose proof (frandn_fill_shape normal z (rng_pos w)) as Hs.
  pose proof (frandn_fill_pos normal z (rng_pos w)) as Hp.
  destruct (frandn_fill normal z (rng_pos w)) as [noise pos].
  cbn [fst snd] in *.
  assert (Hn : numel z = Z.to_nat (a * b * c)).
  { unfold z. rewrite numel_zeros. rewrite !Z2Nat.inj_mul by lia.
    reflexivity. }
  exists noise. split; [ | split ].
  - subst pos. rewrite Hn. reflexivity.
  - rewrite (Forall2_length Hs). unfold z. apply repeat_length.
  - now rewrite (numel_same_shape _ _ Hs).
Qed.



End DemoFacts.

(** The callback never lets an exception of sample reach the training
    loop: with a non-zero demo_every and sizes that are not negative it
    returns normally, for every demo_steps, every global step and every
    network. *)
Theorem demo_callback_returns
  (normal : nat -> R) (rank_zero : bool)
  (diffusion_ema : FTensor -> list R -> FTensor) (global_step : Z)
  (s : DemoState) :
  demo_every (demo_self s) <> 0%Z ->
  (0 <= num_demos (demo_self s))%Z ->
  (0 <= demo_samples (demo_self s))%Z ->
  fst (on_train_batch_end normal rank_zero diffusion_ema global_step s)
  = Returned.
Proof.
  intros He Hn Hm. unfold on_train_batch_end.
  destruct rank_zero; [ | reflexivity ]. cbn [negb].
  destruct (Z.eqb_spec (demo_every (demo_self s)) 0) as [H0 | _];
    [ contradiction | ].
  destruct (negb _ || _)%bool; [ reflexivity | ].
  cbn [num_demos demo_samples demo_steps].
  destruct (randn_run normal (num_demos (demo_self s)) 2
              (demo_samples (demo_self s)) (demo_world s) Hn ltac:(lia) Hm)
    as [noise [-> _]].
  destruct (sample normal diffusion_ema noise _ 0 _) as [[fakes | e] w'];
    reflexivity.
Qed.

Lemma demo_callback_returns_witness :
  3%Z <> 0%Z /\ (0 <= 1)%Z /\ (0 <= 2)%Z /\
  fst (on_train_batch_end (fun _ => 0) true (fun x _ => x) 1
         (mkDemoState (DemoCallback_init 3 1 2 0) (mkWorld 0 []) [] []))
  = Returned.
Proof.
  assert (He : 3%Z <> 0%Z) by lia.
  assert (Hn : (0 <= 1)%Z) by lia.
  assert (Hm : (0 <= 2)%Z) by lia.
  split; [ exact He | ]. split; [ exact Hn | ]. split; [ exact Hm | ].
  exact (demo_callback_returns (fun _ => 0) true (fun x _ => x) 1
           (mkDemoState (DemoCallback_init 3 1 2 0) (mkWorld 0 []) [] [])
           He Hn Hm).
Defined.

(** A demo with demo_steps < 1 fails inside sample and the callback only
    reports it: the noise is drawn, the network is never called, nothing
    goes to stdout, the exception (UnboundLocalError for 0 and -1,
    RuntimeError below) goes to stderr, and the step is marked as done. *)
Theorem demo_callback_reports_failed_demo
  (normal : nat -> R) (diffusion_ema : FTensor -> list R -> FTensor)
  (global_step : Z) (s : DemoState) :
  let self := demo_self s in
  demo_every self <> 0%Z ->
  ((global_step - 1) mod demo_every self = 0)%Z ->
  last_demo_step self <> global_step ->
  (0 <= num_demos self)%Z ->
  (0 <= demo_samples self)%Z ->
  (demo_steps self < 1)%Z ->
  on_train_batch_end normal true diffusion_ema global_step s
  = (Returned,
     mkDemoState
       (mkDemo (demo_every self) (num_demos self) (demo_samples self)
               (demo_steps self) global_step)
       (mkWorld (rng_pos (demo_world s)
                 + Z.to_nat (num_demos self * 2 * demo_samples self))
                (calls (demo_world s)))
       (demo_stdout s)
       (demo_stderr s
        ++ [if (demo_steps self <? -1)%Z then RuntimeError
            else UnboundLocalError])).
Proof.
  intros self He Hg Hl Hn Hm Hst. unfold on_train_batch_end. fold self.
  cbn [negb].
  destruct (Z.eqb_spec (demo_every self) 0) as [H0 | _]; [ contradiction | ].
  rewrite Hg. change (0 =? 0)%Z with true. cbn [negb orb].
  destruct (Z.eqb_spec (last_demo_step self) global_step) as [H1 | _];
    [ contradiction | ].
  cbn [num_demos demo_samples demo_steps].
  destruct (randn_run normal (num_demos self) 2 (demo_samples self)
              (demo_world s) Hn ltac:(lia) Hm) as [noise [-> _]].
  rewrite sample_below_one by exact Hst. reflexivity.
Qed.

Lemma demo_callback_reports_failed_demo_witness :
  demo_stderr
    (snd (on_train_batch_end (fun _ => 0) true (fun x _ => x) 1
            (mkDemoState (DemoCallback_init 3 1 2 0) (mkWorld 0 []) [] [])))
  = [UnboundLocalError].
Proof.
  rewrite (demo_callback_reports_failed_demo (fun _ => 0) (fun x _ => x) 1
             (mkDemoState (DemoCallback_init 3 1 2 0) (mkWorld 0 []) [] []));
    simpl; try lia; reflexivity.
Defined.

(** At most one demo per global step: once the callback has been called
    at a global step, a second call at the same step changes nothing and
    returns, also when the first call ended in an exception of
    torch.randn. *)
Theorem demo_callback_once_per_step
  (normal normal' : nat -> R) (rank_zero : bool)
  (diffusion_ema diffusion_ema' : FTensor -> list R -> FTensor)
  (global_step : Z) (s : DemoState) :
  demo_every (demo_self s) <> 0%Z ->
  let s1 :=
    snd (on_train_batch_end normal rank_zero diffusion_ema global_step s) in
  on_train_batch_end normal' rank_zero diffusion_ema' global_step s1
  = (Returned, s1).
Proof.
  intros He. cbn zeta.
  assert (Hdone : forall st,
            demo_every (demo_self st) = demo_every (demo_self s) ->
            last_demo_step (demo_self st) = global_step ->
            on_train_batch_end normal' true diffusion_ema' global_step st
            = (Returned, st)).
  { intros st Hev Hlast. unfold on_train_batch_end. cbn [negb].
    rewrite Hev, Hlast.
    destruct (Z.eqb_spec (demo_every (demo_self s)) 0) as [H0 | _];
      [ contradiction | ].
    rewrite Z.eqb_refl, orb_true_r. reflexivity. }
  remember (on_train_batch_end normal rank_zero diffusion_ema global_step s)
    as r eqn:Er.
  unfold on_train_batch_end in Er.
  destruct rank_zero; [ | subst r; reflexivity ]. cbn [negb] in Er.
  destruct (Z.eqb_spec (demo_every (demo_self s)) 0) as [H0 | Hne];
    [ contradiction | ].
  destruct (negb _ || _)%bool eqn:Hguard.
  - subst r. cbn [snd]. unfold on_train_batch_end. cbn [negb].
    destruct (Z.eqb_spec (demo_every (demo_self s)) 0) as [H0 | _];
      [ contradiction | ].
    now rewrite Hguard.
  - destruct (randn normal _ 2 _ (demo_world s)) as [[noise | e] w].
    + destruct (sample normal diffusion_ema noise _ 0 w) as [[fakes | e] w'];
        subst r; apply Hdone; reflexivity.
    + subst r; apply Hdone; reflexivity.
Qed.

Lemma demo_callback_once_per_step_witness :
  on_train_batch_end (fun _ => 0) true (fun x _ => x) 1
    (snd (on_train_batch_end (fun _ => 0) true (fun x _ => x) 1
            (mkDemoState (DemoCallback_init 3 1 2 0) (mkWorld 0 []) [] [])))
  = (Returned,
     snd (on_train_batch_end (fun _ => 0) true (fun x _ => x) 1
            (mkDemoState (DemoCallback_init 3 1 2 0) (mkWorld 0 []) [] []))).
Proof.
  apply (demo_callback_once_per_step (fun _ => 0) (fun _ => 0) true
           (fun x _ => x) (fun x _ => x) 1
           (mkDemoState (DemoCallback_init 3 1 2 0) (mkWorld 0 []) [] [])).
  simpl. lia.
Defined.



(** ** The dataset *)

Section DatasetFacts.

Lemma int64b_spec (i : Z) : int64b i = true <-> int64 i.
Proof.
  unfold int64b, int64. rewrite andb_true_iff, Z.leb_le, Z.ltb_lt.
  reflexivity.
Qed.

Lemma index_row_in_range {A : Type} (l : list A) (i : Z) :
  int64 i ->
  (- Z.of_nat (length l) <= i < Z.of_nat (length l))%Z ->
  exists a,
    index_row l i = Item a /\
    nth_error l (Z.to_nat (i mod Z.of_nat (length l))) = Some a.
Proof.
  intros H64 Hi. unfold index_row.
  apply int64b_spec in H64. rewrite H64. cbn [negb].
  set (n := Z.of_nat (length l)) in *.
  assert (Hk : (if (i <? 0)%Z then (n + i)%Z else i) = (i mod n)%Z).
  { destruct (Z.ltb_spec i 0).
    - apply Z.mod_unique with (-1)%Z; lia.
    - symmetry. apply Z.mod_small. lia. }
  rewrite Hk.
  assert (Hr : (0 <= i mod n < n)%Z) by (apply Z.mod_pos_bound; lia).
  destruct (Z.leb_spec 0 (i mod n)); [ | lia ].
  destruct (Z.ltb_spec (i mod n) n); [ | lia ]. cbn [andb].
  destruct (nth_error l (Z.to_nat (i mod n))) as [a |] eqn:E.
  - exists a. split; reflexivity.
  - apply nth_error_None in E. unfold n in *. lia.
Qed.

Lemma index_row_out_of_range {A : Type} (l : list A) (i : Z) :
  int64 i ->
  ~ (- Z.of_nat (length l) <= i < Z.of_nat (length l))%Z ->
  index_row l i = IndexRaise OutOfRange.
Proof.
  intros H64 Hi. unfold index_row.
  apply int64b_spec in H64. rewrite H64. cbn [negb].
  set (n := Z.of_nat (length l)) in *.
  destruct (Z.ltb_spec i 0).
  - destruct (Z.leb_spec 0 (n + i)); [ lia | reflexivity ].
  - destruct (Z.leb_spec 0 i); [ | lia ].
    destruct (Z.ltb_spec i n); [ lia | reflexivity ].
Qed.

Lemma index_row_overflow {A : Type} (l : list A) (i : Z) :
  ~ int64 i -> index_row l i = IndexRaise Overflow.
Proof.
  intros H64. unfold index_row.
  destruct (int64b i) eqn:E; [ | reflexivity ].
  apply int64b_spec in E. contradiction.
Qed.

End DatasetFacts.

(** __getitem__ accepts exactly the indices from -len to len - 1 that a
    signed 64-bit integer holds.  For those it returns the index as given
    and two identical channels, each the half-precision image of row
    idx mod len (so idx and idx - len name the same row), an image that
    need not be finite.  Every other index a 64-bit integer holds, and so
    every such index of an empty dataset, raises IndexError; an index
    below -2^63 or from 2^63 on raises the overflow error of the
    conversion to 64 bits instead, whatever the length. *)
Theorem SampleDataset_getitem_spec
  (to_half : float -> float) (data : list (list float)) (idx : Z) :
  let n := SampleDataset_len data in
  (int64 idx -> (- n <= idx < n)%Z ->
     exists row,
       nth_error data (Z.to_nat (idx mod n)) = Some row /\
       SampleDataset_getitem to_half data idx
       = Item ([map to_half row; map to_half row], idx)) /\
  (int64 idx -> ~ (- n <= idx < n)%Z ->
     SampleDataset_getitem to_half data idx = IndexRaise OutOfRange) /\
  ((idx < - 2 ^ 63)%Z \/ (2 ^ 63 <= idx)%Z ->
     SampleDataset_getitem to_half data idx = IndexRaise Overflow).
Proof.
  cbn zeta. unfold SampleDataset_len, SampleDataset_getitem.
  split; [ | split ].
  - intros H64 Hi.
    destruct (index_row_in_range data idx H64 Hi) as [row [-> Hrow]].
    exists row. split; [ exact Hrow | reflexivity ].
  - intros H64 Hi. now rewrite index_row_out_of_range.
  - intros Hi. rewrite index_row_overflow; [ reflexivity | ].
    unfold int64. lia.
Qed.

(** The last row by a negative index, with a conversion that overflows
    above the largest half-precision number; and the index 2^63. *)
Lemma SampleDataset_getitem_spec_witness :
  SampleDataset_getitem
    (fun e => match e with
               | Fin r => if Rlt_dec 65504 r then NonFinite else Fin r
               | NonFinite => NonFinite
               end)
    [[Fin 1; Fin 2]; [Fin 3; Fin 70000]] (-1)
  = Item ([[Fin 3; NonFinite]; [Fin 3; NonFinite]], (-1)%Z) /\
  SampleDataset_getitem
    (fun e => match e with
               | Fin r => if Rlt_dec 65504 r then NonFinite else Fin r
               | NonFinite => NonFinite
               end)
    [[Fin 1; Fin 2]; [Fin 3; Fin 70000]] (2 ^ 63)
  = IndexRaise Overflow.
Proof.
  set (to_half := fun e => match e with
                           | Fin r =>
                               if Rlt_dec 65504 r then NonFinite else Fin r
                           | NonFinite => NonFinite
                           end).
  pose proof (SampleDataset_getitem_spec to_half
                [[Fin 1; Fin 2]; [Fin 3; Fin 70000]] (-1)) as H1.
  pose proof (SampleDataset_getitem_spec to_half
                [[Fin 1; Fin 2]; [Fin 3; Fin 70000]] (2 ^ 63)) as H2.
  cbn zeta in H1, H2. split.
  - destruct H1 as [H1 _].
    destruct H1 as [row [Hrow E]].
    + unfold int64. lia.
    + unfold SampleDataset_len. simpl. lia.
    + unfold SampleDataset_len in Hrow. simpl in Hrow.
      injection Hrow as <-. rewrite E. unfold to_half. simpl.
      destruct (Rlt_dec 65504 3) as [H | _]; [ lra | ].
      destruct (Rlt_dec 65504 70000) as [_ | H]; [ reflexivity | lra ].
  - destruct H2 as [_ [_ H2]]. apply H2. right. lia.
Defined.

(** ** The sampler on the zero denoiser *)

Section ZeroDenoiser.

Lemma tmap_tmap {A B C : Type} (f : A -> B) (g : B -> C)
  (x : list (list (list A))) :
  tmap g (tmap f x) = tmap (fun e => g (f e)) x.
Proof.
  unfold tmap. rewrite map_map. apply map_ext. intros m.
  rewrite map_map. apply map_ext. intros r. apply map_map.
Qed.

Lemma tmap_ext {A B : Type} (f g : A -> B) (x : list (list (list A))) :
  (forall e, f e = g e) -> tmap f x = tmap g x.
Proof.
  intros H. unfold tmap. apply map_ext. intros m. apply map_ext. intros r.
  now apply map_ext.
Qed.

Lemma zipWith_map_same {A B C D : Type} (f : B -> C -> D) (g : A -> B)
  (h : A -> C) (l : list A) :
  zipWith f (map g l) (map h l) = map (fun e => f (g e) (h e)) l.
Proof. induction l as [| e l IH]; simpl; [ reflexivity | now rewrite IH ]. Qed.

Lemma tzip_tmap_same {A B C D : Type} (f : B -> C -> D) (g : A -> B)
  (h : A -> C) (x : list (list (list A))) :
  tzip f (tmap g x) (tmap h x) = tmap (fun e => f (g e) (h e)) x.
Proof.
  unfold tzip, tmap. rewrite zipWith_map_same. apply map_ext. intros m.
  rewrite zipWith_map_same. apply map_ext. intros r.
  apply zipWith_map_same.
Qed.

Lemma tscale_one (x : FTensor) : ftscale x (Fin 1) = x.
Proof.
  unfold ftscale. rewrite (tmap_ext _ (fun e => e)).
  - unfold tmap. rewrite <- (map_id x) at 2. apply map_ext. intros m.
    rewrite <- (map_id m) at 2. apply map_ext. intros r. apply map_id.
  - intros [e |]; simpl; [ now rewrite Rmult_1_r | reflexivity ].
Qed.

(** With no velocity, [pred] and [eps] are the state scaled by alpha and
    by sigma, and their recombination scales it once more. *)
Lemma zero_velocity_step (x0 : FTensor) (tv : list R) (c a s a' s' : R) :
  let x := ftscale x0 (Fin c) in
  let v := zero_velocity x tv in
  let pred := ftsub (ftscale x (Fin a)) (ftscale v (Fin s)) in
  let eps := ftadd (ftscale x (Fin s)) (ftscale v (Fin a)) in
  pred = ftscale x0 (Fin (c * a)) /\
  ftadd (ftscale pred (Fin a')) (ftscale eps (Fin s'))
  = ftscale x0 (Fin (c * (a * a' + s * s'))).
Proof.
  cbn zeta. unfold zero_velocity, ftadd, ftsub, ftscale.
  repeat (rewrite tmap_tmap || rewrite tzip_tmap_same).
  split; apply tmap_ext; intros [e |]; simpl; try reflexivity;
    f_equal; ring.
Qed.

(** On the unit circle two points of the first quadrant have a scalar
    product between 0 and 1. *)
Lemma quadrant_product (a s a' s' : R) :
  0 <= a -> 0 <= s -> 0 <= a' -> 0 <= s' ->
  a ^ 2 + s ^ 2 = 1 -> a' ^ 2 + s' ^ 2 = 1 ->
  0 <= a * a' + s * s' <= 1.
Proof.
  intros Ha Hs Ha' Hs' Hc Hc'. split; [ nra | ].
  pose proof (pow2_ge_0 (a - a')). pose proof (pow2_ge_0 (s - s')). nra.
Qed.

Lemma sched_quadrant (steps : Z) (i : nat) :
  (Z.of_nat i < steps)%Z ->
  0 <= sched_alpha steps i <= 1 /\ 0 <= sched_sigma steps i <= 1.
Proof.
  intros Hi.
  destruct (sched_alpha_sq steps i) as [Ha0 Ha].
  destruct (sched_sigma_range steps i Hi) as [[Hs0 Hs1] _].
  split; [ split; [ exact Ha0 | nra ] | lra ].
Qed.

Lemma zero_gain_unit (steps : Z) (k : nat) :
  (Z.of_nat k < steps)%Z -> 0 <= zero_gain steps k <= 1.
Proof.
  induction k as [| k IH]; intros Hk; simpl; [ lra | ].
  specialize (IH ltac:(lia)).
  destruct (sched_quadrant steps k ltac:(lia)) as [Ha Hs].
  destruct (sched_quadrant steps (S k) ltac:(lia)) as [Ha' Hs'].
  pose proof (quadrant_product _ _ _ _ (proj1 Ha) (proj1 Hs) (proj1 Ha')
                (proj1 Hs') (sched_unit_circle steps k)
                (sched_unit_circle steps (S k))) as Hq.
  nra.
Qed.

(** The state after [k] deterministic iterations on the zero denoiser. *)
Lemma zero_velocity_trajectory (normal : nat -> R) (x0 : FTensor)
  (steps : Z) (w0 : FWorld) (k : nat) :
  (Z.of_nat k < steps)%Z ->
  loc_x (fst (trajectory normal zero_velocity x0 steps 0 w0 k))
  = ftscale x0 (zero_gain steps k).
Proof.
  induction k as [| k IH]; intros Hk.
  - simpl. now rewrite tscale_one.
  - specialize (IH ltac:(lia)). simpl trajectory.
    destruct (trajectory normal zero_velocity x0 steps 0 w0 k) as [st w].
    simpl in IH. unfold iteration.
    destruct (Z.ltb_spec (Z.of_nat k) (steps - 1)) as [Hlt | Hge]; [ | lia ].
    destruct (Req_dec_T 0 0) as [_ | Hn]; [ | now contradiction Hn ].
    cbn [fst loc_x]. rewrite eta0_adjusted_sigma by exact Hlt.
    rewrite IH. simpl zero_gain.
    apply (zero_velocity_step x0).
Qed.

Lemma trajectory_pred (normal : nat -> R)
  (model : FTensor -> list R -> FTensor) (x0 : FTensor) (steps : Z) (eta : R)
  (w0 : FWorld) (k : nat) :
  let x := loc_x (fst (trajectory normal model x0 steps eta w0 k)) in
  loc_pred (fst (trajectory normal model x0 steps eta w0 (S k)))
  = Some (ftsub (ftscale x (sched_alpha steps k))
               (ftscale (model x (repeat (sched_t steps k) (length x0)))
                       (sched_sigma steps k))).
Proof.
  cbn zeta. simpl trajectory.
  destruct (trajectory normal model x0 steps eta w0 k) as [st w].
  unfold iteration.
  destruct (Z.of_nat k <? steps - 1)%Z; [ destruct (Req_dec_T eta 0) | ];
    try destruct (frandn_fill _ _ _); reflexivity.
Qed.

End ZeroDenoiser.

(** With the denoiser that predicts no velocity and eta = 0, sample only
    rescales its input: the result is x times the product of the scalar
    products of consecutive schedule points and of the last alpha, a
    factor between 0 and 1; with a single step the factor is alpha_0 = 0
    and the result is x*0. *)
Theorem sample_zero_velocity_scales
  (normal : nat -> R) (x0 : FTensor) (steps : Z) (w0 : FWorld) :
  (1 <= steps)%Z ->
  let last := Z.to_nat (steps - 1) in
  let gain := zero_gain steps last * sched_alpha steps last in
  fst (sample normal zero_velocity x0 steps 0 w0) = Ok (ftscale x0 gain) /\
  0 <= gain <= 1 /\
  (steps = 1%Z -> gain = 0).
Proof.
  intros Hs. cbn zeta.
  set (k := Z.to_nat (steps - 1)).
  assert (Hk : Z.to_nat steps = S k) by (unfold k; lia).
  destruct (sample_run normal zero_velocity x0 steps 0 w0 Hs) as [p [Hp E]].
  rewrite Hk in Hp.
  pose proof (trajectory_pred normal zero_velocity x0 steps 0 w0 k) as Hq.
  cbn zeta in Hq. rewrite Hp in Hq. injection Hq as ->.
  rewrite zero_velocity_trajectory in E by (unfold k; lia).
  split; [ | split ].
  - rewrite E. cbn [fst]. f_equal.
    exact (proj1 (zero_velocity_step x0 _ (zero_gain steps k)
                    (sched_alpha steps k) (sched_sigma steps k) 0 0)).
  - pose proof (zero_gain_unit steps k ltac:(unfold k; lia)).
    destruct (sched_quadrant steps k ltac:(unfold k; lia)) as [Ha _].
    nra.
  - intros ->. unfold k. change (Z.to_nat (1 - 1)) with 0%nat.
    destruct (sched_first 1 ltac:(lia)) as (_ & -> & _). simpl. ring.
Qed.

Lemma sample_zero_velocity_scales_witness :
  (1 <= 1)%Z /\
  fst (sample (fun _ => 0) zero_velocity [[[Fin 5]]] 1 0 (mkWorld 0 []))
  = Ok (ftscale [[[Fin 5]]] (zero_gain 1 0 * sched_alpha 1 0)).
Proof.
  assert (Hs : (1 <= 1)%Z) by lia.
  split; [ exact Hs | ].
  exact (proj1 (sample_zero_velocity_scales (fun _ => 0) [[[Fin 5]]] 1
                  (mkWorld 0 []) Hs)).
Defined.
